(** * Table assignment engine of timeleftegypt

    A shallow embedding of [src/algorithms/tableAssignment.js] (round-robin
    fill, location grouping, shuffle, single-member move, distribution
    statistics) and of the session-exit cleanup of
    [src/contexts/AuthContext.js], with the properties of the
    specification stated and settled against it; then of the handlers of
    the dashboard and of the admin panel that call the engine and commit
    its result to the store, and of the profile and role functions of
    the account context, with further properties read off the code.

    Conventions of the embedding.
    - JavaScript values that may be [undefined] are [option]s ([None] is
      [undefined]); an id is an [option string], so that a record with a
      missing id and one with the empty id are both expressible.
    - [Array.length] and [maxPeoplePerTable] are natural numbers.  The
      settings form only admits 2..20; every theorem states the bound
      on the capacity it needs.
    - A reference to a table object inside the working array is the
      index of that table in the list.  The tables handed to the engine
      are the objects decoded from one store snapshot, one object per
      document, so no two positions alias the same object; functions on
      values are faithful under that reading.  [moveUserBetweenTables],
      whose contract speaks about copies, is also modelled over an
      explicit object heap (module [Heap]).
    - [Math.random] is an oracle that gives, for the loop index [i], the
      value of [Math.floor(Math.random() * (i + 1))].
    - Coordinates are rationals; [Math.round] rounds half up.
    - The store is outside the program: whether it takes a call is a
      parameter of the function that makes the call, and a batch it
      takes is applied as a whole, its writes in the order they were
      added. *)

From Stdlib Require Import QArith Qround.
From stdpp Require Import base list gmap strings pretty.

Open Scope nat_scope.

(** ** Data model *)

Definition Id := option string.

Record Location := mkLocation {
  latitude : Q;
  longitude : Q
}.

Module User.
Record t := mk {
  id : Id;
  displayName : option string;
  name : option string;
  fullName : option string;
  photoURL : option string;
  gender : option string;
  preferences : option (list (string * string));
  location : option Location
}.
End User.

Module Member.
Record t := mk {
  id : Id;
  name : option string;
  fullName : option string;
  photoURL : option string;
  gender : option string;
  preferences : option (list (string * string))
}.
End Member.

Module Table.
Record t := mk {
  id : string;
  name : string;
  members : list Member.t
}.

Definition size (table : t) : nat := length (members table).

Definition ids (table : t) : list Id := Member.id <$> members table.

(** [table.members.push(m)] *)
Definition push (m : Member.t) (table : t) : t :=
  mk (id table) (name table) (members table ++ [m]).

(** [{ ...table, members: ms }] *)
Definition withMembers (ms : list Member.t) (table : t) : t :=
  mk (id table) (name table) ms.
End Table.

Record Settings := mkSettings {
  maxPeoplePerTable : option nat;
  considerLocation : option bool
}.

(** The default [maxPeoplePerTable = 5] of a destructured setting or of an
    omitted parameter. *)
Definition capOf (c : option nat) : nat := default 5 c.

(** [a || b] on possibly-undefined strings: the empty string is falsy. *)
Definition js_or (a b : option string) : option string :=
  match a with
  | Some s => if decide (s = ""%string) then b else a
  | None => b
  end.

(** Truthiness of an id, as in [users.filter(user => user.id)]. *)
Definition truthy (i : Id) : bool :=
  match i with
  | Some s => bool_decide (s ≠ ""%string)
  | None => false
  end.

(** ** Round-robin fill *)

(** The member snapshot pushed by [assignRoundRobin]. *)
Definition snapshot (user : User.t) : Member.t :=
  Member.mk (User.id user)
            (js_or (User.displayName user) (User.name user))
            (User.fullName user)
            (User.photoURL user)
            (User.gender user)
            (User.preferences user).

(** The inner [for (const table of result)] loop: [i] is the position of
    the head of [rest] in [result], [target] the position of
    [targetTable] ([None] is [null]). *)
Fixpoint scanTables (rest : list Table.t) (i : nat)
    (target : option nat) (minMembers : nat) : option nat * nat :=
  match rest with
  | [] => (target, minMembers)
  | table :: rest' =>
      if decide (Table.size table < minMembers)
      then scanTables rest' (S i) (Some i) (Table.size table)
      else scanTables rest' (S i) target minMembers
  end.

Definition findTarget (result : list Table.t) (cap : nat) : option nat :=
  fst (scanTables result 0 None cap).

(** The object literal of a new table; [n] is [result.length]. *)
Definition newTable (n : nat) : Table.t :=
  Table.mk ("table-" +:+ pretty (n + 1)) ("Table " +:+ pretty (n + 1)) [].

(** [!targetTable || targetTable.members.length >= maxPeoplePerTable] *)
Definition needsNewTable (result : list Table.t) (cap : nat)
    (target : option nat) : bool :=
  match target with
  | None => true
  | Some i =>
      match result !! i with
      | Some table => bool_decide (cap ≤ Table.size table)
      | None => true
      end
  end.

(** One iteration of the outer loop: the working list after [user] has
    been seated. *)
Definition placeUser (cap : nat) (result : list Table.t) (user : User.t)
    : list Table.t :=
  let target := findTarget result cap in
  if needsNewTable result cap target
  then alter (Table.push (snapshot user)) (length result)
             (result ++ [newTable (length result)])
  else alter (Table.push (snapshot user)) (default 0 target) result.

Definition assignRoundRobin (users : list User.t) (tables : list Table.t)
    (cap : nat) : list Table.t :=
  foldl (placeUser cap) tables users.

(** ** Location grouping *)

(** [Math.round]: the nearest integer, halves towards plus infinity. *)
Definition js_round (x : Q) : Z := Qfloor (x + (1 # 2)).

Definition locationKey (user : User.t) : string :=
  match User.location user with
  | Some loc =>
      pretty (js_round (latitude loc * 100)) +:+ "-" +:+
      pretty (js_round (longitude loc * 100))
  | None => "unknown"%string
  end.

(** [locationGroups] keeps its keys in insertion order (no key is an
    array index: each contains a dash or is the word unknown), so it is
    an association list; [groupPush] is the create-if-absent followed by
    the push. *)
Fixpoint groupPush (key : string) (user : User.t)
    (groups : list (string * list User.t)) : list (string * list User.t) :=
  match groups with
  | [] => [(key, [user])]
  | (k, us) :: rest =>
      if decide (k = key) then (k, us ++ [user]) :: rest
      else (k, us) :: groupPush key user rest
  end.

Definition locationGroups (users : list User.t)
    : list (string * list User.t) :=
  foldl (λ groups user, groupPush (locationKey user) user groups) [] users.

Definition assignByLocation (users : list User.t) (tables : list Table.t)
    (cap : nat) : list Table.t :=
  foldl (λ result group, result ++ assignRoundRobin (snd group) [] cap)
        tables (locationGroups users).

(** ** assignUsersToTables

    An omitted [existingTables] is the empty list. *)

(** The [Set] filled by the two nested [forEach]. *)
Definition assignedUserIds (tables : list Table.t) : gset Id :=
  foldl (λ acc table,
           foldl (λ acc' member, {[Member.id member]} ∪ acc')
                 acc (Table.members table))
        ∅ tables.

Definition unassignedUsers (users : list User.t) (tables : list Table.t)
    : list User.t :=
  filter (λ user, User.id user ∉ assignedUserIds tables) users.

Definition assignUsersToTables (users : list User.t) (settings : Settings)
    (existingTables : list Table.t) : list Table.t :=
  let cap := capOf (maxPeoplePerTable settings) in
  let tables := existingTables in
  let unassigned := unassignedUsers users tables in
  if default false (considerLocation settings)
  then assignByLocation unassigned tables cap
  else assignRoundRobin unassigned tables cap.

(** ** shuffleTables *)

(** [tables.forEach(table => allUsers.push(...table.members))] *)
Definition collectMembers (tables : list Table.t) : list Member.t :=
  foldl (λ allUsers table, allUsers ++ Table.members table) [] tables.

(** [[a[i], a[j]] = [a[j], a[i]]]; both positions are inside the array
    whenever [j ≤ i < a.length], which is how the loop below calls it:
    [i] runs below the length and [randomIndex_le] bounds [j] by [i] for
    every value [Math.random] can return. *)
Definition swap {A} (a : list A) (i j : nat) : list A :=
  match a !! i, a !! j with
  | Some x, Some y => <[j := x]> (<[i := y]> a)
  | _, _ => a
  end.

(** [Math.floor(r * (i + 1))] for the value [r] of [Math.random()]. *)
Definition randomIndex (r : Q) (i : nat) : nat :=
  Z.to_nat (Qfloor (r * inject_Z (Z.of_nat (i + 1)))).

(** The loop [for (i = a.length - 1; i > 0; i--)]: [random k] is the
    value of the [k]-th call of [Math.random], [i] the loop variable. *)
Fixpoint fisherYates {A} (random : nat → Q) (k i : nat) (a : list A)
    : list A :=
  match i with
  | 0 => a
  | S i' => fisherYates random (S k) i' (swap a i (randomIndex (random k) i))
  end.

(** [a.slice(from, to)] for [from ≤ to]. *)
Definition slice {A} (from to : nat) (a : list A) : list A :=
  take (to - from) (drop from a).

(** The loop [for (i = 0; i < shuffledUsers.length; i += cap)].  It does
    not end when [cap = 0] and there is a member, so it runs on fuel:
    [None] is a loop still running when the fuel is spent. *)
Fixpoint chunkLoop (fuel : nat) (shuffledUsers : list Member.t)
    (cap i : nat) (newTables : list Table.t) : option (list Table.t) :=
  if decide (i < length shuffledUsers) then
    match fuel with
    | 0 => None
    | S fuel' =>
        chunkLoop fuel' shuffledUsers cap (i + cap)
          (newTables ++
             [Table.mk ("table-" +:+ pretty (length newTables + 1))
                       ("Table " +:+ pretty (length newTables + 1))
                       (slice i (i + cap) shuffledUsers)])
    end
  else Some newTables.

Definition shuffleTables (fuel : nat) (random : nat → Q)
    (tables : list Table.t) (maxPeoplePerTable : option nat)
    : option (list Table.t) :=
  let cap := capOf maxPeoplePerTable in
  let allUsers := collectMembers tables in
  let shuffledUsers := fisherYates random 0 (length allUsers - 1) allUsers in
  chunkLoop fuel shuffledUsers cap 0 [].

(** ** moveUserBetweenTables *)

Record MoveResult := mkMoveResult {
  success : bool;
  tables : list Table.t;
  message : string
}.

(** [result.find(table => table.id === tableId)]: the table found and its
    position in [result], which stands for the reference to it. *)
Definition findTable (tableId : string) (result : list Table.t)
    : option (nat * Table.t) :=
  list_find (λ table, Table.id table = tableId) result.

(** [members.findIndex(member => member.id === userId)] together with the
    member at that index; [None] is -1. *)
Definition findMember (userId : Id) (members : list Member.t)
    : option (nat * Member.t) :=
  list_find (λ member, Member.id member = userId) members.

Definition moveUserBetweenTables (tables : list Table.t) (userId : Id)
    (fromTableId toTableId : string) (maxPeoplePerTable : option nat)
    : MoveResult :=
  let cap := capOf maxPeoplePerTable in
  let result := tables in
  match findTable fromTableId result, findTable toTableId result with
  | Some (f, fromTable), Some (t, toTable) =>
      if decide (cap ≤ Table.size toTable)
      then mkMoveResult false result "Destination table is full"
      else
        match findMember userId (Table.members fromTable) with
        | None => mkMoveResult false result "User not found in source table"
        | Some (userIndex, user) =>
            (* fromTable.members.splice(userIndex, 1) *)
            let result1 :=
              alter (Table.withMembers
                       (delete userIndex (Table.members fromTable)))
                    f result in
            (* toTable.members.push(user) *)
            let result2 := alter (Table.push user) t result1 in
            mkMoveResult true result2 "User moved successfully"
        end
  | _, _ => mkMoveResult false result "Table not found"
  end.

(** ** getTableDistributionStats *)

(** The numbers the function can compute from two array lengths: an
    integer, [Infinity] or [NaN]. *)
Inductive jsnum :=
  | Int (z : Z)
  | Infinity
  | NaN.

(** [Math.ceil(a / b)] *)
Definition ceilDiv (a b : nat) : jsnum :=
  if decide (b = 0) then (if decide (a = 0) then NaN else Infinity)
  else Int (Z.of_nat ((a + b - 1) / b)).

(** [Math.floor(a / m)] *)
Definition floorDiv (a : nat) (m : jsnum) : jsnum :=
  match m with
  | Int z =>
      if decide (z = 0%Z) then (if decide (a = 0) then NaN else Infinity)
      else Int (Z.of_nat a / z)
  | Infinity => Int 0
  | NaN => NaN
  end.

(** [a % m] *)
Definition jsmod (a : nat) (m : jsnum) : jsnum :=
  match m with
  | Int z => if decide (z = 0%Z) then NaN else Int (Z.rem (Z.of_nat a) z)
  | Infinity => Int (Z.of_nat a)
  | NaN => NaN
  end.

(** [m - e]; the subtrahend is a remainder and is never infinite. *)
Definition jssub (m e : jsnum) : jsnum :=
  match m, e with
  | Int x, Int y => Int (x - y)
  | Infinity, Int _ => Infinity
  | _, _ => NaN
  end.

Record Stats := mkStats {
  totalTables : jsnum;
  averagePeoplePerTable : jsnum;
  tablesWithExtraPerson : jsnum;
  tablesWithNormalCount : jsnum
}.

Definition getTableDistributionStats (totalUsers : nat)
    (maxPeoplePerTable : option nat) : Stats :=
  let minTables := ceilDiv totalUsers (capOf maxPeoplePerTable) in
  let perfectDistribution := floorDiv totalUsers minTables in
  let tablesWithExtra := jsmod totalUsers minTables in
  mkStats minTables perfectDistribution tablesWithExtra
          (jssub minTables tablesWithExtra).

(** ** moveUserBetweenTables over an object heap

    The same function with its objects made explicit: the array of
    tables, each table object and each [members] array live at a
    location, and [map], the spread copies, [splice] and [push] allocate
    or update locations.  Member snapshots are never written to by the
    function and stay values.  [None] is the [TypeError] of reading a
    property of something that is not the expected kind of object. *)

Module Heap.

Definition loc := positive.

Inductive obj :=
  | TableArray (elems : list loc)
  | TableObj (id name : string) (members : loc)
  | MemberArray (elems : list Member.t).

Abbreviation heap := (gmap loc obj).

Definition alloc (o : obj) (h : heap) : loc * heap :=
  let l := fresh (dom h) in (l, <[l := o]> h).

(** [table.members] read through the two references. *)
Definition membersOf (h : heap) (table : loc)
    : option (loc * list Member.t) :=
  match h !! table with
  | Some (TableObj _ _ m) =>
      match h !! m with
      | Some (MemberArray ms) => Some (m, ms)
      | _ => None
      end
  | _ => None
  end.

(** [table => ({ ...table, members: [...table.members] })] *)
Definition copyTable (h : heap) (table : loc) : option (loc * heap) :=
  match h !! table with
  | Some (TableObj i n m) =>
      match h !! m with
      | Some (MemberArray ms) =>
          let '(m', h1) := alloc (MemberArray ms) h in
          Some (alloc (TableObj i n m') h1)
      | _ => None
      end
  | _ => None
  end.

(** [tables.map(...)], without the allocation of the resulting array. *)
Fixpoint mapCopy (h : heap) (elems : list loc)
    : option (list loc * heap) :=
  match elems with
  | [] => Some ([], h)
  | table :: rest =>
      '(table', h1) ← copyTable h table;
      '(rest', h2) ← mapCopy h1 rest;
      Some (table' :: rest', h2)
  end.

(** [result.find(table => table.id === tableId)]: a reference. *)
Fixpoint findTable (h : heap) (tableId : string) (result : list loc)
    : option loc :=
  match result with
  | [] => None
  | table :: rest =>
      match h !! table with
      | Some (TableObj i _ _) =>
          if decide (i = tableId) then Some table
          else findTable h tableId rest
      | _ => findTable h tableId rest
      end
  end.

Record MoveResult := mkMoveResult {
  success : bool;
  tables : loc;
  message : string
}.

Definition moveUserBetweenTables (h : heap) (tables : loc) (userId : Id)
    (fromTableId toTableId : string) (maxPeoplePerTable : option nat)
    : option (MoveResult * heap) :=
  let cap := capOf maxPeoplePerTable in
  match h !! tables with
  | Some (TableArray elems) =>
      '(copies, h1) ← mapCopy h elems;
      let '(result, h2) := alloc (TableArray copies) h1 in
      match findTable h2 fromTableId copies,
            findTable h2 toTableId copies with
      | Some fromTable, Some toTable =>
          '(_, toMembers) ← membersOf h2 toTable;
          if decide (cap ≤ length toMembers)
          then Some (mkMoveResult false result "Destination table is full",
                     h2)
          else
            '(fromArr, fromMembers) ← membersOf h2 fromTable;
            match findMember userId fromMembers with
            | None =>
                Some (mkMoveResult false result
                        "User not found in source table", h2)
            | Some (userIndex, user) =>
                (* fromTable.members.splice(userIndex, 1) *)
                let h3 :=
                  <[fromArr := MemberArray (delete userIndex fromMembers)]>
                    h2 in
                (* toTable.members.push(user) *)
                '(toArr, toMembers') ← membersOf h3 toTable;
                let h4 :=
                  <[toArr := MemberArray (toMembers' ++ [user])]> h3 in
                Some (mkMoveResult true result "User moved successfully",
                      h4)
            end
      | _, _ => Some (mkMoveResult false result "Table not found", h2)
      end
  | _ => None
  end.

(** Reading a table list back from the heap. *)
Definition readTable (h : heap) (table : loc) : option Table.t :=
  match h !! table with
  | Some (TableObj i n m) =>
      match h !! m with
      | Some (MemberArray ms) => Some (Table.mk i n ms)
      | _ => None
      end
  | _ => None
  end.

Definition readTables (h : heap) (tables : loc) : option (list Table.t) :=
  match h !! tables with
  | Some (TableArray elems) => mapM (readTable h) elems
  | _ => None
  end.

(** The locations a table list is made of: the array, the table
    objects and their member arrays. *)
Definition footprint (h : heap) (tables : loc) : list loc :=
  match h !! tables with
  | Some (TableArray elems) =>
      tables :: elems ++ omap (λ t, fst <$> membersOf h t) elems
  | _ => [tables]
  end.

End Heap.

(** ** Session exit: removeUserFromTable and logout *)

Module Session.

(** A table document of the client's snapshot; [members] may be
    absent, which is what the guard [table.members && ...] tests. *)
Record TableDoc := mkTableDoc {
  id : string;
  name : string;
  members : option (list Member.t)
}.

(** The calls that leave the client. *)
Inductive Call :=
  | DeleteDoc (tableId : string)
  | SetDoc (tableId : string) (doc : TableDoc)
  | SignOut.

Inductive Outcome (A : Type) :=
  | Returned (a : A)
  | Thrown (error : string).
Arguments Returned {A} a.
Arguments Thrown {A} error.

(** A computation extends the trace of calls made so far and either
    returns or throws. *)
Definition Eff (A : Type) : Type := list Call → list Call * Outcome A.

Definition ret {A} (a : A) : Eff A := λ trace, (trace, Returned a).

Definition throw {A} (error : string) : Eff A :=
  λ trace, (trace, Thrown error).

Definition bind {A B} (m : Eff A) (k : A → Eff B) : Eff B :=
  λ trace,
    match m trace with
    | (trace', Returned a) => k a trace'
    | (trace', Thrown error) => (trace', Thrown error)
    end.

(** [try { body } catch (error) { handler }] *)
Definition tryCatch {A} (body : Eff A) (handler : string → Eff A)
    : Eff A :=
  λ trace,
    match body trace with
    | (trace', Returned a) => (trace', Returned a)
    | (trace', Thrown error) => handler error trace'
    end.

Notation "m ;; k" := (bind m (λ _, k))
  (at level 100, k at level 200, right associativity).

Section Hook.

(** Whether an awaited call rejects, given the calls made before it,
    and with which error. *)
Variable rejects : list Call → Call → option string.

(** [await call] *)
Definition perform (call : Call) : Eff unit :=
  λ trace,
    (trace ++ [call],
     match rejects trace call with
     | Some error => Thrown error
     | None => Returned tt
     end).

(** [table.members && table.members.some(member => member.id === userId)] *)
Definition seats (userId : Id) (table : TableDoc) : Prop :=
  match members table with
  | Some ms => Exists (λ member, Member.id member = userId) ms
  | None => False
  end.

#[global] Instance seats_dec userId table : Decision (seats userId table).
Proof. unfold seats. destruct (members table); apply _. Defined.

Definition removeUserFromTable (tables : list TableDoc) (userId : Id)
    : Eff unit :=
  tryCatch
    (match list_find (seats userId) tables with
     | Some (_, userTable) =>
         let updatedMembers :=
           filter (λ member, Member.id member ≠ userId)
                  (default [] (members userTable)) in
         if decide (length updatedMembers = 0)
         then perform (DeleteDoc (id userTable))
         else perform (SetDoc (id userTable)
                         (mkTableDoc (id userTable) (name userTable)
                                     (Some updatedMembers)))
     | None => ret tt
     end)
    (λ _, ret tt).

Definition logout (tables : list TableDoc) (currentUser : option Id)
    : Eff unit :=
  tryCatch
    ((match currentUser with
      | Some uid => removeUserFromTable tables uid
      | None => ret tt
      end) ;;
     perform SignOut)
    (λ error, throw error).

End Hook.

(** The effect of a call that the store accepted. *)
Definition commit (call : Call) (store : gmap string TableDoc)
    : gmap string TableDoc :=
  match call with
  | DeleteDoc tableId => delete tableId store
  | SetDoc tableId doc => <[tableId := doc]> store
  | SignOut => store
  end.

End Session.

(** * Vocabulary of the specification *)

(** All member snapshots of a table list, table after table, and their
    ids: the multiset of seated members is this list up to permutation. *)
Definition seatedMembers (ts : list Table.t) : list Member.t :=
  ts ≫= Table.members.

Definition seatedIds (ts : list Table.t) : list Id := ts ≫= Table.ids.

(** Capacity invariant. *)
Definition withinCapacity (cap : nat) (ts : list Table.t) : Prop :=
  Forall (λ t, Table.size t ≤ cap) ts.

(** No user id is in the member list of two tables. *)
Definition noDoubleSeating (ts : list Table.t) : Prop :=
  ∀ i j ti tj x, ts !! i = Some ti → ts !! j = Some tj →
    x ∈ Table.ids ti → x ∈ Table.ids tj → i = j.

(** The table the round-robin policy names: among the tables with fewer
    than [cap] members one with the fewest members, and of those the
    first in creation order. *)
Definition leastFilled (cap : nat) (ts : list Table.t) (i : nat) : Prop :=
  ∃ t, ts !! i = Some t ∧ Table.size t < cap ∧
    (∀ j t', ts !! j = Some t' → Table.size t' < cap →
       Table.size t ≤ Table.size t') ∧
    (∀ j t', ts !! j = Some t' → Table.size t' < cap →
       Table.size t' = Table.size t → i ≤ j).

(** A new table, named after its 1-based position [n + 1], seating
    [user] alone. *)
Definition seatedNew (user : User.t) (n : nat) : Table.t :=
  Table.mk ("table-" +:+ pretty (n + 1)) ("Table " +:+ pretty (n + 1))
           [snapshot user].

(** The users of all location groups, and the loop of [assignByLocation]
    over an arbitrary list of groups. *)
Definition groupedUsers (groups : list (string * list User.t))
    : list User.t :=
  groups ≫= snd.

Definition fillGroups (cap : nat) (tables : list Table.t)
    (groups : list (string * list User.t)) : list Table.t :=
  foldl (λ result group, result ++ assignRoundRobin (snd group) [] cap)
        tables groups.

(** [Math.random] returns a number in the interval from 0 (included) to
    1 (excluded). *)
Definition validRandom (random : nat → Q) : Prop :=
  ∀ k, (0 <= random k)%Q ∧ (random k < 1)%Q.

(** Tables named by their 1-based position, counted from [offset]. *)
Definition freshlyNamed (offset : nat) (ts : list Table.t) : Prop :=
  ∀ k t, ts !! k = Some t →
    Table.id t = ("table-" +:+ pretty (offset + k + 1))%string ∧
    Table.name t = ("Table " +:+ pretty (offset + k + 1))%string.

(** Every table is non-empty and within [cap], and every table but the
    last holds exactly [cap] members. *)
Definition fullExceptLast (cap : nat) (ts : list Table.t) : Prop :=
  ∀ k t, ts !! k = Some t →
    1 ≤ Table.size t ≤ cap ∧ (S k < length ts → Table.size t = cap).

(** The first table with id [A], and the first member with id [u]. *)
Definition firstTable (ts : list Table.t) (A : string) (i : nat)
    (t : Table.t) : Prop :=
  ts !! i = Some t ∧ Table.id t = A ∧
  ∀ j t', ts !! j = Some t' → j < i → Table.id t' ≠ A.

Definition firstMember (ms : list Member.t) (u : Id) (k : nat)
    (m : Member.t) : Prop :=
  ms !! k = Some m ∧ Member.id m = u ∧
  ∀ j m', ms !! j = Some m' → j < k → Member.id m' ≠ u.

(** The validation failures of a move: a table is not found, or the
    destination is full, or the user is not in the source. *)
Definition tableNotFound (ts : list Table.t) (A B : string) : Prop :=
  (∀ t, t ∈ ts → Table.id t ≠ A) ∨ (∀ t, t ∈ ts → Table.id t ≠ B).

Definition moveFails (ts : list Table.t) (u : Id) (A B : string)
    (cap : nat) : Prop :=
  tableNotFound ts A B ∨
  ∃ f fromT t toT, firstTable ts A f fromT ∧ firstTable ts B t toT ∧
    (cap ≤ Table.size toT ∨
     ∀ m, m ∈ Table.members fromT → Member.id m ≠ u).

(** What a successful move does to the member list of the table at
    position [i]: the source [f] loses the snapshot at [k], then the
    destination [t] gains [user] at its end. *)
Definition movedMembers (f t k : nat) (user : Member.t) (i : nat)
    (ms : list Member.t) : list Member.t :=
  let ms1 := if decide (i = f) then delete k ms else ms in
  if decide (i = t) then ms1 ++ [user] else ms1.

(** [out] is [ts] except that the snapshot of [u] went from the first
    table with id [A] to the end of the first table with id [B]; every
    table keeps its position, id and name. *)
Definition movedTo (ts : list Table.t) (u : Id) (A B : string)
    (out : list Table.t) : Prop :=
  ∃ f fromT t toT k user,
    firstTable ts A f fromT ∧ firstTable ts B t toT ∧
    firstMember (Table.members fromT) u k user ∧
    ∀ i, out !! i =
         (λ t0, Table.withMembers
                  (movedMembers f t k user i (Table.members t0)) t0)
           <$> ts !! i.

(** [copies] and their member arrays [arrs] are objects absent from the
    heap [h0], pairwise distinct, that hold the tables [ts] in [hh]. *)
Definition copiedInto (h0 hh : Heap.heap) (copies arrs : list Heap.loc)
    (ts : list Table.t) : Prop :=
  length copies = length ts ∧ length arrs = length ts ∧
  NoDup (copies ++ arrs) ∧
  (∀ l, l ∈ copies ++ arrs → h0 !! l = None) ∧
  (∀ i c t, copies !! i = Some c → ts !! i = Some t →
     ∃ m, arrs !! i = Some m ∧
       hh !! c = Some (Heap.TableObj (Table.id t) (Table.name t) m) ∧
       hh !! m = Some (Heap.MemberArray (Table.members t))).

(** The reading of the specification under which [assign] skips
    malformed records: a member without a proper id is in the output
    only if it was seated before. *)
Definition skipsMalformed (users : list User.t) (settings : Settings)
    (existing : list Table.t) : Prop :=
  ∀ t m, t ∈ assignUsersToTables users settings existing →
    m ∈ Table.members t → truthy (Member.id m) = false →
    m ∈ seatedMembers existing.

(** [users.filter(user => user.id)], the filter both callers of
    [assignUsersToTables] apply to the user list first. *)
Definition validUsers (users : list User.t) : list User.t :=
  filter (λ user, truthy (User.id user) = true) users.

(** The first table document of the snapshot that seats [userId]. *)
Definition firstSeat (tables : list Session.TableDoc) (userId : Id)
    (i : nat) (table : Session.TableDoc) : Prop :=
  tables !! i = Some table ∧ Session.seats userId table ∧
  ∀ j table', tables !! j = Some table' → j < i →
    ¬ Session.seats userId table'.

(** The member list a departure leaves behind. *)
Definition withoutUser (userId : Id) (table : Session.TableDoc)
    : list Member.t :=
  filter (λ member, Member.id member ≠ userId)
         (default [] (Session.members table)).

(** ** Example data *)

Definition bare (i : Id) (loc : option Location) : User.t :=
  User.mk i None None None None None None loc.

Definition userNamed (s : string) : User.t := bare (Some s) None.

Definition abc : list User.t :=
  [userNamed "a"; userNamed "b"; userNamed "c"].

(** One table seating [a]. *)
Definition seatedA : list Table.t :=
  [Table.mk "table-1" "Table 1" [snapshot (userNamed "a")]].

(** One table of six, as in the shuffle scenario. *)
Definition sixAtOneTable : list Table.t :=
  [Table.mk "t1" "Table 1"
     (snapshot <$> [userNamed "u1"; userNamed "u2"; userNamed "u3";
                    userNamed "u4"; userNamed "u5"; userNamed "u6"])].

(** The tables of the move scenario, as values and as objects. *)
Definition twoTables : list Table.t :=
  [Table.mk "t1" "Table 1" [snapshot (userNamed "u1")];
   Table.mk "t2" "Table 2" []].

Definition moveHeap : Heap.heap :=
  <[1%positive := Heap.TableArray [2%positive; 4%positive]]>
  (<[2%positive := Heap.TableObj "t1" "Table 1" 3%positive]>
  (<[3%positive := Heap.MemberArray [snapshot (userNamed "u1")]]>
  (<[4%positive := Heap.TableObj "t2" "Table 2" 5%positive]>
  (<[5%positive := Heap.MemberArray []]> ∅)))).

(** Two users in different location buckets, and a full second table
    that outlived the first one. *)
Definition cairo : User.t := bare (Some "a"%string) (Some (mkLocation 30 31)).

Definition giza : User.t := bare (Some "b"%string) (Some (mkLocation 31 32)).

Definition fullTable2 : list Table.t :=
  [Table.mk "table-2" "Table 2"
     [snapshot (userNamed "b"); snapshot (userNamed "c")]].

(** A snapshot of the tables collection in which [a] sits alone, and a
    store that rejects every call. *)
Definition aloneAtTable1 : list Session.TableDoc :=
  [Session.mkTableDoc "table-1" "Table 1" (Some [snapshot (userNamed "a")])].

Definition offline (_ : list Session.Call) (_ : Session.Call)
    : option string :=
  Some "unavailable"%string.

(** * The screens and the account context

    The handlers of the dashboard and of the admin panel that call the
    engine, over the [tables] collection of the store, and the profile
    and role functions of the account context. *)

(** ** The tables collection and the batches the screens commit *)

Module Store.

(** The documents of the [tables] collection, by document id. *)
Abbreviation Tables := (gmap string Table.t).

(** [batch.delete(doc(db, 'tables', id))] and
    [batch.set(doc(db, 'tables', id), table)]. *)
Inductive Write :=
  | Delete (tableId : string)
  | Put (tableId : string) (table : Table.t).

Definition write (store : Tables) (w : Write) : Tables :=
  match w with
  | Delete tableId => delete tableId store
  | Put tableId table => <[tableId := table]> store
  end.

(** A committed batch: its writes in the order they were added. *)
Definition commit (batch : list Write) (store : Tables) : Tables :=
  foldl write store batch.

(** [tables.forEach(table => batch.delete(doc(db, 'tables', table.id)))] *)
Definition deleteAll (tables : list Table.t) : list Write :=
  (λ table, Delete (Table.id table)) <$> tables.

(** [tables.forEach(table => batch.set(doc(db, 'tables', table.id), table))] *)
Definition setAll (tables : list Table.t) : list Write :=
  (λ table, Put (Table.id table) table) <$> tables.

(** [try { ...; await batch.commit(); done } catch (error) { failed }]
    around a batch: [refused] is the error of a batch the store did not
    take (a write it does not admit, or a rejected commit), in which case
    nothing is written; the result is the collection afterwards and the
    alerts shown. *)
Definition submit (refused : option string) (batch : list Write)
    (store : Tables) (done : list string) (failed : string → list string)
    : Tables * list string :=
  match refused with
  | None => (commit batch store, done)
  | Some error => (store, failed error)
  end.

End Store.

(** ** Accounts, profiles and roles *)

Module Auth.

(** The signed-in account ([currentUser]). *)
Record Account := mkAccount {
  uid : string;
  email : option string;
  displayName : option string;
  photoURL : option string;
  isAnonymous : bool
}.

End Auth.

(** A user document, as [userProfile] holds it and as the [users]
    collection stores it; a field that is absent is [None]. *)
Module Profile.
Record t := mk {
  id : option string;
  email : option string;
  displayName : option string;
  name : option string;
  fullName : option string;
  photoURL : option string;
  gender : option string;
  preferences : option (gmap string string);
  location : option Location;
  role : option string;
  isAnonymous : option bool;
  lastUpdated : option string;
  createdAt : option string
}.

(** [{}] *)
Definition empty : t :=
  mk None None None None None None None None None None None None None.

End Profile.

(** The argument of [updateUserProfile]: any subset of the fields;
    [location] may be given as [null] ([Some None]). *)
Module ProfileData.
Record t := mk {
  displayName : option string;
  name : option string;
  fullName : option string;
  photoURL : option string;
  gender : option string;
  preferences : option (gmap string string);
  location : option (option Location);
  role : option string;
  isAnonymous : option bool
}.

(** [{}], [{ role }], [{ photoURL }] and [{ location }] *)
Definition empty : t := mk None None None None None None None None None.

Definition ofRole (newRole : string) : t :=
  mk None None None None None None None (Some newRole) None.

Definition ofPhoto (url : string) : t :=
  mk None None None (Some url) None None None None None.

Definition ofLocation (loc : Location) : t :=
  mk None None None None None None (Some (Some loc)) None None.
End ProfileData.

Module AuthContext.

(** [a || b] where [a] may be undefined and [b] is a boolean. *)
Definition js_orb (a : option bool) (b : bool) : bool :=
  match a with
  | Some true => true
  | _ => b
  end.

(** The object [updatedProfile] built by [updateUserProfile]; [now] is
    [new Date().toISOString()]. *)
Definition updatedProfile (now : string) (currentUser : Auth.Account)
    (userProfile : option Profile.t) (profileData : ProfileData.t)
    : Profile.t :=
  let currentProfile := default Profile.empty userProfile in
  Profile.mk
    (Some (Auth.uid currentUser))
    (js_or (Auth.email currentUser)
       (js_or (Profile.email currentProfile) (Some ""%string)))
    (js_or (ProfileData.displayName profileData)
       (js_or (Profile.displayName currentProfile)
          (js_or (Auth.displayName currentUser) (Some ""%string))))
    (js_or (ProfileData.name profileData)
       (js_or (ProfileData.displayName profileData)
          (js_or (Profile.name currentProfile)
             (js_or (Auth.displayName currentUser) (Some ""%string)))))
    (js_or (ProfileData.fullName profileData)
       (js_or (Profile.fullName currentProfile) (Some ""%string)))
    (js_or (ProfileData.photoURL profileData)
       (js_or (Profile.photoURL currentProfile)
          (js_or (Auth.photoURL currentUser) (Some ""%string))))
    (match ProfileData.gender profileData with
     | Some gender => Some gender
     | None => js_or (Profile.gender currentProfile) (Some ""%string)
     end)
    (Some (default ∅ (ProfileData.preferences profileData)
           ∪ default ∅ (Profile.preferences currentProfile)))
    (match ProfileData.location profileData with
     | Some location => location
     | None => Profile.location currentProfile
     end)
    (match ProfileData.role profileData with
     | Some role => Some role
     | None => js_or (Profile.role currentProfile) (Some ""%string)
     end)
    (Some (match ProfileData.isAnonymous profileData with
           | Some anonymous => anonymous
           | None => js_orb (Profile.isAnonymous currentProfile)
                            (Auth.isAnonymous currentUser)
           end))
    (Some now)
    (js_or (Profile.createdAt currentProfile) (Some now)).

(** What a call leaves behind: the [userProfile] state, the document
    handed to [setDoc] (with the id it is stored under), and how the
    call ended. *)
Record Update := mkUpdate {
  userProfile : option Profile.t;
  written : option (string * Profile.t);
  outcome : Session.Outcome (option Profile.t)
}.

(** [refused] is the error of a rejected [setDoc]. *)
Definition updateUserProfile (refused : option string) (now : string)
    (currentUser : option Auth.Account) (userProfile : option Profile.t)
    (profileData : ProfileData.t) : Update :=
  match currentUser with
  | None => mkUpdate userProfile None (Session.Returned None)
  | Some account =>
      let updated := updatedProfile now account userProfile profileData in
      match refused with
      | None =>
          mkUpdate (Some updated) (Some (Auth.uid account, updated))
                   (Session.Returned (Some updated))
      | Some error =>
          mkUpdate userProfile (Some (Auth.uid account, updated))
                   (Session.Thrown error)
      end
  end.

Definition isAdmin (currentUser : option Auth.Account)
    (userProfile : option Profile.t) : bool :=
  match currentUser, userProfile with
  | Some _, Some profile =>
      bool_decide (Profile.role profile = Some "admin"%string)
      || bool_decide (Profile.role profile = Some "super-admin"%string)
  | _, _ => false
  end.

Definition isSuperAdmin (currentUser : option Auth.Account)
    (userProfile : option Profile.t) : bool :=
  match currentUser, userProfile with
  | Some _, Some profile =>
      bool_decide (Profile.role profile = Some "super-admin"%string)
  | _, _ => false
  end.

(** [setAdminRole(role)]: the [userProfile] state afterwards and the
    boolean returned; an omitted [role] is ['admin']. *)
Definition setAdminRole (refused : option string) (now : string)
    (currentUser : option Auth.Account) (userProfile : option Profile.t)
    (role : option string) : option Profile.t * bool :=
  match currentUser with
  | None => (userProfile, false)
  | Some _ =>
      let update :=
        updateUserProfile refused now currentUser userProfile
          (ProfileData.ofRole (default "admin"%string role)) in
      match outcome update with
      | Session.Returned _ => (AuthContext.userProfile update, true)
      | Session.Thrown _ => (AuthContext.userProfile update, false)
      end
  end.

(** The profile written for an account that has no document yet; the
    two timestamps are taken one after the other. *)
Definition initialProfile (created updated : string) (user : Auth.Account)
    : Profile.t :=
  Profile.mk
    (Some (Auth.uid user))
    (js_or (Auth.email user) (Some ""%string))
    (js_or (Auth.displayName user) (Some ""%string))
    (js_or (Auth.displayName user) (Some ""%string))
    (Some ""%string)
    (js_or (Auth.photoURL user) (Some ""%string))
    (Some ""%string)
    (Some ∅)
    None
    (Some ""%string)
    (Some (Auth.isAnonymous user))
    (Some updated)
    (Some created).

(** [loadUserProfile(user)] over the [users] collection: the collection
    and the [userProfile] state afterwards, and the value returned
    ([None] is [null]).  [getFails] and [setFails] say whether [getDoc]
    and [setDoc] reject. *)
Definition loadUserProfile (getFails setFails : bool)
    (created updated : string) (user : Auth.Account)
    (users : gmap string Profile.t) (userProfile : option Profile.t)
    : gmap string Profile.t * option Profile.t * option Profile.t :=
  if getFails then (users, userProfile, None)
  else
    match users !! Auth.uid user with
    | Some profile => (users, Some profile, Some profile)
    | None =>
        let initial := initialProfile created updated user in
        if setFails then (users, userProfile, None)
        else (<[Auth.uid user := initial]> users, Some initial, Some initial)
    end.

End AuthContext.

(** ** The dashboard: table assignment and table change *)

Module Dashboard.

(** The effect that keeps [myTable]: the first table of the snapshot that
    seats the current user. *)
Definition myTableOf (currentUser : option Auth.Account)
    (tables : list Table.t) : option Table.t :=
  match currentUser with
  | Some account =>
      if decide (0 < length tables)
      then snd <$> list_find
             (λ table,
                Exists (λ member, Member.id member = Some (Auth.uid account))
                       (Table.members table))
             tables
      else None
  | None => None
  end.

(** The record built for a current user that is not in the users list;
    of its fields the engine reads the ones of [User.t]. *)
Definition currentUserData (currentUser : Auth.Account)
    (userProfile : User.t) : User.t :=
  User.mk
    (Some (Auth.uid currentUser))
    (js_or (User.displayName userProfile)
       (js_or (User.name userProfile)
          (js_or (Auth.displayName currentUser) (Some ""%string))))
    (js_or (User.name userProfile)
       (js_or (User.displayName userProfile)
          (js_or (Auth.displayName currentUser) (Some ""%string))))
    (js_or (User.fullName userProfile) (Some ""%string))
    (js_or (User.photoURL userProfile)
       (js_or (Auth.photoURL currentUser) (Some ""%string)))
    (js_or (User.gender userProfile) (Some ""%string))
    (Some (default [] (User.preferences userProfile)))
    (User.location userProfile).

(** The users handed to the engine: the valid records of the snapshot,
    and the current user at the end when no record has its uid. *)
Definition allUsers (currentUser : Auth.Account) (userProfile : User.t)
    (users : list User.t) : list User.t :=
  let allUsers := validUsers users in
  match list_find (λ user, User.id user = Some (Auth.uid currentUser))
                  allUsers with
  | Some _ => allUsers
  | None => allUsers ++ [currentUserData currentUser userProfile]
  end.

(** The trial call on three test users before the real one only logs
    its result. *)
Definition handleAssignTable (refused : option string)
    (currentUser : option Auth.Account) (userProfile : option User.t)
    (users : list User.t) (settings : Settings) (tables : list Table.t)
    (store : Store.Tables) : Store.Tables * list string :=
  match currentUser, userProfile with
  | Some account, Some profile =>
      let newTables :=
        assignUsersToTables (allUsers account profile users) settings tables in
      if decide (length newTables = 0)
      then (store,
            ["Failed to generate table assignments. Please try again."%string])
      else
        Store.submit refused
          (Store.deleteAll tables ++ Store.setAll newTables) store
          [] (λ error, [("Failed to assign table: " +:+ error)%string])
  | _, _ =>
      (store,
       ["Please complete your profile first before getting a table assignment."
        %string])
  end.

Definition handleChangeTable (refused : option string)
    (currentUser : option Auth.Account) (myTable : option Table.t)
    (newTableId : string) (settings : Settings) (tables : list Table.t)
    (store : Store.Tables) : Store.Tables * list string :=
  match currentUser, myTable with
  | Some account, Some table =>
      match moveUserBetweenTables tables (Some (Auth.uid account))
              (Table.id table) newTableId (maxPeoplePerTable settings) with
      | mkMoveResult true result _ =>
          Store.submit refused (Store.setAll result) store
            [] (λ _, ["Failed to change table. Please try again."%string])
      | mkMoveResult false _ text => (store, [text])
      end
  | _, _ => (store, [])
  end.

(** The tables offered in the selection dialog, and whether the join
    button of one is disabled: a comparison with an undefined
    [maxPeoplePerTable] is false. *)
Definition tableOptions (myTable : option Table.t) (tables : list Table.t)
    : list Table.t :=
  filter (λ table, Some (Table.id table) ≠ Table.id <$> myTable) tables.

Definition joinDisabled (loading : bool) (settings : Settings)
    (table : Table.t) : bool :=
  loading ||
  match maxPeoplePerTable settings with
  | Some cap => bool_decide (cap ≤ Table.size table)
  | None => false
  end.

End Dashboard.

(** ** The admin panel: shuffle, reassign, clear *)

Module AdminPanel.

(** [confirmed] is the answer to [window.confirm]; the result is [None]
    when the shuffle is still running after [fuel] steps. *)
Definition handleShuffleTables (confirmed : bool) (refused : option string)
    (fuel : nat) (random : nat → Q) (settings : Settings)
    (tables : list Table.t) (store : Store.Tables)
    : option (Store.Tables * list string) :=
  if confirmed then
    match shuffleTables fuel random tables (maxPeoplePerTable settings) with
    | Some shuffledTables =>
        Some (Store.submit refused
                (Store.deleteAll tables ++ Store.setAll shuffledTables) store
                ["Tables shuffled successfully!"%string]
                (λ _, ["Failed to shuffle tables. Please try again."%string]))
    | None => None
    end
  else Some (store, []).

Definition handleReassignAll (confirmed : bool) (refused : option string)
    (users : list User.t) (settings : Settings) (tables : list Table.t)
    (store : Store.Tables) : Store.Tables * list string :=
  if confirmed then
    let allUsers := validUsers users in
    let newTables := assignUsersToTables allUsers settings [] in
    Store.submit refused
      (Store.deleteAll tables ++ Store.setAll newTables) store
      ["All users reassigned successfully!"%string]
      (λ _, ["Failed to reassign users. Please try again."%string])
  else (store, []).

Definition handleClearAllTables (confirmed : bool) (refused : option string)
    (tables : list Table.t) (store : Store.Tables)
    : Store.Tables * list string :=
  if confirmed then
    Store.submit refused (Store.deleteAll tables) store
      ["All tables cleared successfully!"%string]
      (λ _, ["Failed to clear tables. Please try again."%string])
  else (store, []).

End AdminPanel.

(** ** The admin panel: user roles *)

Module Roles.



End Roles.

(** ** Vocabulary of the further properties *)

(** [new] keeps every table of [old] at its position, with its id and
    name and with its members as the first members; a table of [old]
    that holds [cap] members or more is kept as it is. *)
Definition retains (cap : nat) (old new : list Table.t) : Prop :=
  ∀ i t, old !! i = Some t →
    ∃ t', new !! i = Some t' ∧
      Table.id t' = Table.id t ∧ Table.name t' = Table.name t ∧
      Table.members t `prefix_of` Table.members t' ∧
      (cap ≤ Table.size t → t' = t).


(** The collection holds exactly the tables [ts], each under its id. *)
Definition holds (store : Store.Tables) (ts : list Table.t) : Prop :=
  NoDup (Table.id <$> ts) ∧
  ∀ i t, store !! i = Some t ↔ t ∈ ts ∧ Table.id t = i.

(** Every table is named after a position of the list, in whatever
    order the snapshot lists them. *)
Definition positionNamed (ts : list Table.t) : Prop :=
  NoDup (Table.id <$> ts) ∧
  ∀ t, t ∈ ts →
    ∃ k, k < length ts ∧ Table.id t = ("table-" +:+ pretty (k + 1))%string.

(** The documents a client snapshot lists are the ones the collection
    holds, one per id. *)
Definition docsHold (store : gmap string Session.TableDoc)
    (docs : list Session.TableDoc) : Prop :=
  NoDup (Session.id <$> docs) ∧
  ∀ i d, store !! i = Some d ↔ d ∈ docs ∧ Session.id d = i.

(** The collection after the store took every call of a trace. *)
Definition afterCalls (calls : list Session.Call)
    (store : gmap string Session.TableDoc) : gmap string Session.TableDoc :=
  foldl (λ s call, Session.commit call s) store calls.

(** A store that takes every call. *)
Definition online (_ : list Session.Call) (_ : Session.Call)
    : option string := None.

(** A string that [||] skips: undefined or empty. *)
Definition blank (a : option string) : Prop := a = None ∨ a = Some ""%string.

(** [profile] with [lastUpdated] set to [now]. *)
Definition stamped (now : string) (profile : Profile.t) : Profile.t :=
  Profile.mk (Profile.id profile) (Profile.email profile)
    (Profile.displayName profile) (Profile.name profile)
    (Profile.fullName profile) (Profile.photoURL profile)
    (Profile.gender profile) (Profile.preferences profile)
    (Profile.location profile) (Profile.role profile)
    (Profile.isAnonymous profile) (Some now) (Profile.createdAt profile).

(** ** Further example data *)

Definition visitor : Auth.Account :=
  Auth.mkAccount "d" None None None false.

(** The collection that holds the one table of [seatedA]. *)
Definition seatedAStore : Store.Tables :=
  {[ "table-1"%string :=
       Table.mk "table-1" "Table 1" [snapshot (userNamed "a")] ]}.

(** The collection in which the two tables of the move scenario were
    written. *)
Definition twoTablesStore : Store.Tables :=
  Store.commit (Store.setAll twoTables) ∅.

Definition guest : Auth.Account := Auth.mkAccount "u1" None None None false.

(** The collection that holds the document of [aloneAtTable1]. *)
Definition aloneStore : gmap string Session.TableDoc :=
  {[ "table-1"%string :=
       Session.mkTableDoc "table-1" "Table 1"
         (Some [snapshot (userNamed "a")]) ]}.

(** An account signed in under a name, and what its first save leaves. *)
Definition nour : Auth.Account := Auth.mkAccount "n1" None None None true.

Definition nourData : ProfileData.t :=
  ProfileData.mk (Some "Nour"%string) (Some "Nour"%string)
    (Some "Nour"%string) None None None None None (Some true).

(** A stored profile of a super admin. *)
Definition rootProfile : Profile.t :=
  Profile.mk (Some "n1"%string) (Some ""%string) (Some "Nour"%string)
    (Some "Nour"%string) (Some "Nour"%string) (Some ""%string)
    (Some ""%string) (Some ∅) None (Some "super-admin"%string) (Some true)
    (Some "t0"%string) (Some "t0"%string).

(** The [users] collection that holds the profile of the super admin. *)
Definition rootOnly : gmap string Profile.t :=
  {[ "n1"%string := rootProfile ]}.



(** * Round-robin fill *)

Section RoundRobin.

Implicit Types (ts : list Table.t) (u : User.t) (cap : nat).

(** The scan either keeps the target it started with, every table being
    at least as filled as [m], or ends on the first table of least size. *)
Lemma scanTables_spec rest : ∀ i target m,
  let r := scanTables rest i target m in
  (r = (target, m) ∧ Forall (λ t, m ≤ Table.size t) rest) ∨
  (∃ j t, r = (Some (i + j), Table.size t) ∧ rest !! j = Some t ∧
     Table.size t < m ∧
     Forall (λ t', Table.size t ≤ Table.size t') rest ∧
     ∀ j' t', j' < j → rest !! j' = Some t' → Table.size t < Table.size t').
Proof.
  induction rest as [|a rest IH]; intros i target m; simpl.
  - left. split; [done | constructor].
  - destruct (decide (Table.size a < m)) as [Hlt|Hge].
    + right.
      destruct (IH (S i) (Some i) (Table.size a))
        as [[-> Hall]|(j & t & -> & Hj & Hlt' & Hall & Hfirst)].
      * exists 0, a. rewrite Nat.add_0_r. split_and!; try done.
        { constructor; [lia | done]. }
        { intros j' t' Hj'. lia. }
      * exists (S j), t. replace (i + S j) with (S i + j) by lia.
        split_and!; try done; try lia.
        { constructor; [lia | done]. }
        { intros [|j'] t' Hj' Hl; simpl in Hl.
          - injection Hl as <-. lia.
          - apply (Hfirst j'); [lia | done]. }
    + destruct (IH (S i) target m)
        as [[-> Hall]|(j & t & -> & Hj & Hlt' & Hall & Hfirst)].
      * left. split; [done|]. constructor; [lia | done].
      * right. exists (S j), t. replace (i + S j) with (S i + j) by lia.
        split_and!; try done.
        { constructor; [lia | done]. }
        { intros [|j'] t' Hj' Hl; simpl in Hl.
          - injection Hl as <-. lia.
          - apply (Hfirst j'); [lia | done]. }
Qed.

Lemma findTarget_cases ts cap :
  (findTarget ts cap = None ∧ Forall (λ t, cap ≤ Table.size t) ts) ∨
  (∃ i, findTarget ts cap = Some i ∧ leastFilled cap ts i).
Proof.
  unfold findTarget.
  destruct (scanTables_spec ts 0 None cap)
    as [[-> Hall]|(j & t & -> & Hj & Hlt & Hall & Hfirst)].
  - by left.
  - right. exists j. split; [done|]. exists t.
    rewrite Forall_lookup in Hall. split_and!; try done.
    + intros j' t' Hj' _. by apply (Hall j').
    + intros j' t' Hj' _ Heq. apply Nat.nlt_ge. intros Hlt'.
      specialize (Hfirst _ _ Hlt' Hj'). lia.
Qed.

Lemma leastFilled_unique cap ts i j :
  leastFilled cap ts i → leastFilled cap ts j → i = j.
Proof.
  intros (ti & Hi & Hci & Hmin_i & Hfirst_i) (tj & Hj & Hcj & Hmin_j & Hfirst_j).
  pose proof (Hmin_i _ _ Hj Hcj). pose proof (Hmin_j _ _ Hi Hci).
  assert (Table.size ti = Table.size tj) as Heq by lia.
  pose proof (Hfirst_i _ _ Hj Hcj (eq_sym Heq)).
  pose proof (Hfirst_j _ _ Hi Hci Heq). lia.
Qed.

Lemma leastFilled_or_full cap ts :
  (∃ i, leastFilled cap ts i) ∨ Forall (λ t, cap ≤ Table.size t) ts.
Proof.
  destruct (findTarget_cases ts cap) as [[_ H]|(i & _ & H)]; eauto.
Qed.

Lemma alter_snoc {A} (f : A → A) (l : list A) (x : A) :
  alter f (length l) (l ++ [x]) = l ++ [f x].
Proof.
  replace (length l) with (length l + 0) by lia.
  by rewrite alter_app_r.
Qed.

Lemma alter_as_insert {A} (f : A → A) (l : list A) i x :
  l !! i = Some x → alter f i l = <[i := f x]> l.
Proof.
  intros Hx. apply list_eq. intros k.
  destruct (decide (i = k)) as [<-|Hne].
  - rewrite list_lookup_alter_eq, Hx, list_lookup_insert_eq; [done|].
    by eapply lookup_lt_Some.
  - by rewrite list_lookup_alter_ne, list_lookup_insert_ne.
Qed.

(** The user goes to the table the policy names, when there is one ... *)
Lemma placeUser_target cap ts u i :
  leastFilled cap ts i →
  placeUser cap ts u = alter (Table.push (snapshot u)) i ts.
Proof.
  intros Hi. unfold placeUser.
  destruct (findTarget_cases ts cap) as [[_ Hall]|(j & -> & Hj)].
  - destruct Hi as (t & Ht & Hlt & _). rewrite Forall_lookup in Hall.
    specialize (Hall _ _ Ht). simpl in Hall. lia.
  - rewrite (leastFilled_unique _ _ _ _ Hi Hj). simpl.
    destruct Hj as (t & -> & Hlt & _).
    rewrite bool_decide_eq_false_2; [done | lia].
Qed.

(** ... and to a new table at the end otherwise. *)
Lemma placeUser_fresh cap ts u :
  Forall (λ t, cap ≤ Table.size t) ts →
  placeUser cap ts u = ts ++ [seatedNew u (length ts)].
Proof.
  intros Hall. unfold placeUser.
  destruct (findTarget_cases ts cap)
    as [[-> _]|(j & -> & (t & Ht & Hlt & _))].
  - cbn [needsNewTable]. by rewrite alter_snoc.
  - rewrite Forall_lookup in Hall. specialize (Hall _ _ Ht).
    simpl in Hall. lia.
Qed.

Lemma placeUser_cases cap ts u :
  (∃ i t, ts !! i = Some t ∧ Table.size t < cap ∧
     placeUser cap ts u = <[i := Table.push (snapshot u) t]> ts) ∨
  placeUser cap ts u = ts ++ [seatedNew u (length ts)].
Proof.
  destruct (leastFilled_or_full cap ts) as [[i Hi]|Hall].
  - left. pose proof Hi as (t & Ht & Hlt & _). exists i, t.
    split_and!; try done.
    rewrite (placeUser_target _ _ _ _ Hi). by apply alter_as_insert.
  - right. by apply placeUser_fresh.
Qed.

(** ** Who is seated after a fill *)

Lemma seatedMembers_app ts1 ts2 :
  seatedMembers (ts1 ++ ts2) = seatedMembers ts1 ++ seatedMembers ts2.
Proof. apply bind_app. Qed.

Lemma seatedMembers_cons t ts :
  seatedMembers (t :: ts) = Table.members t ++ seatedMembers ts.
Proof. reflexivity. Qed.

Lemma seatedIds_cons t ts : seatedIds (t :: ts) = Table.ids t ++ seatedIds ts.
Proof. reflexivity. Qed.

Lemma seatedIds_app ts1 ts2 :
  seatedIds (ts1 ++ ts2) = seatedIds ts1 ++ seatedIds ts2.
Proof. apply bind_app. Qed.

Lemma seatedIds_members ts : seatedIds ts = Member.id <$> seatedMembers ts.
Proof.
  induction ts as [|t ts IH]; [done|].
  by rewrite seatedIds_cons, seatedMembers_cons, fmap_app, IH.
Qed.

Lemma seatedMembers_insert ts i t m :
  ts !! i = Some t →
  seatedMembers (<[i := Table.push m t]> ts) ≡ₚ seatedMembers ts ++ [m].
Proof.
  intros Ht.
  rewrite <- (take_drop_middle ts i t Ht) at 2.
  rewrite insert_take_drop by (by eapply lookup_lt_Some).
  rewrite !seatedMembers_app, !seatedMembers_cons. cbn [Table.push Table.members].
  rewrite <- !app_assoc. do 2 apply Permutation_app_head.
  apply Permutation_app_comm.
Qed.

Lemma seatedMembers_placeUser cap ts u :
  seatedMembers (placeUser cap ts u) ≡ₚ seatedMembers ts ++ [snapshot u].
Proof.
  destruct (placeUser_cases cap ts u) as [(i & t & Ht & _ & ->)| ->].
  - by apply seatedMembers_insert.
  - by rewrite seatedMembers_app.
Qed.

Lemma seatedMembers_assignRoundRobin us : ∀ ts cap,
  seatedMembers (assignRoundRobin us ts cap)
  ≡ₚ seatedMembers ts ++ (snapshot <$> us).
Proof.
  unfold assignRoundRobin.
  induction us as [|u us IH]; intros ts cap; cbn [foldl].
  - by rewrite app_nil_r.
  - rewrite IH, seatedMembers_placeUser. by rewrite <- app_assoc.
Qed.

Lemma snapshot_ids (us : list User.t) :
  Member.id <$> (snapshot <$> us) = User.id <$> us.
Proof. by rewrite <- list_fmap_compose. Qed.

Lemma seatedIds_placeUser cap ts u :
  seatedIds (placeUser cap ts u) ≡ₚ seatedIds ts ++ [User.id u].
Proof.
  by rewrite !seatedIds_members, seatedMembers_placeUser, fmap_app.
Qed.

Lemma seatedIds_assignRoundRobin us ts cap :
  seatedIds (assignRoundRobin us ts cap) ≡ₚ seatedIds ts ++ (User.id <$> us).
Proof.
  by rewrite !seatedIds_members, seatedMembers_assignRoundRobin, fmap_app,
    snapshot_ids.
Qed.

End RoundRobin.

(** * Location grouping and assignUsersToTables *)

Section Assign.

Implicit Types (ts : list Table.t) (users us : list User.t) (cap : nat).

(** Grouping loses no user and invents none. *)
Lemma groupPush_users key user groups :
  groupedUsers (groupPush key user groups) ≡ₚ groupedUsers groups ++ [user].
Proof.
  unfold groupedUsers.
  induction groups as [|[k us] rest IH]; simpl; [done|].
  case_decide; simpl.
  - rewrite <- !app_assoc. apply Permutation_app_head, Permutation_app_comm.
  - rewrite IH. by rewrite <- app_assoc.
Qed.

Lemma locationGroups_users users :
  groupedUsers (locationGroups users) ≡ₚ users.
Proof.
  unfold locationGroups.
  enough (∀ groups,
    groupedUsers (foldl (λ groups user,
                           groupPush (locationKey user) user groups)
                    groups users) ≡ₚ groupedUsers groups ++ users) as H
    by apply (H []).
  induction users as [|u users IH]; intros groups; cbn [foldl].
  - by rewrite app_nil_r.
  - rewrite IH, groupPush_users. by rewrite <- app_assoc.
Qed.

Lemma seatedMembers_fillGroups cap groups : ∀ ts,
  seatedMembers (fillGroups cap ts groups)
  ≡ₚ seatedMembers ts ++ (snapshot <$> groupedUsers groups).
Proof.
  unfold fillGroups, groupedUsers.
  induction groups as [|[k us] rest IH]; intros ts; cbn [foldl].
  - by rewrite app_nil_r.
  - rewrite IH, seatedMembers_app, seatedMembers_assignRoundRobin.
    rewrite bind_cons, fmap_app. cbn [snd]. by rewrite <- app_assoc.
Qed.

Lemma seatedMembers_assign users settings ts :
  seatedMembers (assignUsersToTables users settings ts)
  ≡ₚ seatedMembers ts ++ (snapshot <$> unassignedUsers users ts).
Proof.
  unfold assignUsersToTables.
  destruct (default false (considerLocation settings)).
  - unfold assignByLocation.
    etrans; [apply (seatedMembers_fillGroups _ (locationGroups _))|].
    by rewrite locationGroups_users.
  - apply seatedMembers_assignRoundRobin.
Qed.

Lemma seatedIds_fillGroups cap groups ts :
  seatedIds (fillGroups cap ts groups)
  ≡ₚ seatedIds ts ++ (User.id <$> groupedUsers groups).
Proof.
  by rewrite !seatedIds_members, seatedMembers_fillGroups, fmap_app,
    snapshot_ids.
Qed.

Lemma seatedIds_assign users settings ts :
  seatedIds (assignUsersToTables users settings ts)
  ≡ₚ seatedIds ts ++ (User.id <$> unassignedUsers users ts).
Proof.
  by rewrite !seatedIds_members, seatedMembers_assign, fmap_app,
    snapshot_ids.
Qed.

(** The [Set] of assigned ids holds exactly the seated ids. *)
Lemma elem_of_addMembers x ms : ∀ acc : gset Id,
  x ∈ foldl (λ acc' member, {[Member.id member]} ∪ acc') acc ms
  ↔ x ∈ acc ∨ x ∈ Member.id <$> ms.
Proof.
  induction ms as [|m ms IH]; intros acc; cbn [foldl].
  - rewrite fmap_nil, elem_of_nil. tauto.
  - rewrite IH, elem_of_union, elem_of_singleton, fmap_cons, elem_of_cons.
    tauto.
Qed.

Lemma elem_of_addTables x ts : ∀ acc : gset Id,
  x ∈ foldl (λ acc table,
         foldl (λ acc' member, {[Member.id member]} ∪ acc')
               acc (Table.members table)) acc ts
  ↔ x ∈ acc ∨ x ∈ seatedIds ts.
Proof.
  induction ts as [|t ts IH]; intros acc; cbn [foldl].
  - change (seatedIds []) with (@nil Id). rewrite elem_of_nil. tauto.
  - rewrite IH, elem_of_addMembers, seatedIds_cons, elem_of_app.
    unfold Table.ids. tauto.
Qed.

Lemma elem_of_assignedUserIds x ts :
  x ∈ assignedUserIds ts ↔ x ∈ seatedIds ts.
Proof.
  unfold assignedUserIds. rewrite elem_of_addTables, elem_of_empty. tauto.
Qed.

Lemma elem_of_unassignedUsers u users ts :
  u ∈ unassignedUsers users ts ↔ u ∈ users ∧ User.id u ∉ seatedIds ts.
Proof.
  unfold unassignedUsers.
  rewrite list_elem_of_filter, elem_of_assignedUserIds. tauto.
Qed.

(** Every user handed to [assignUsersToTables] is seated in its result,
    whatever its id. *)
Lemma assign_seats_all users settings ts u :
  u ∈ users → User.id u ∈ seatedIds (assignUsersToTables users settings ts).
Proof.
  intros Hu. rewrite seatedIds_assign, elem_of_app.
  destruct (decide (User.id u ∈ seatedIds ts)) as [|Hn]; [by left|].
  right. apply list_elem_of_fmap. exists u. split; [done|].
  by apply elem_of_unassignedUsers.
Qed.

Lemma unassignedUsers_nil users ts :
  (∀ u, u ∈ users → User.id u ∈ seatedIds ts) → unassignedUsers users ts = [].
Proof.
  intros H. unfold unassignedUsers.
  induction users as [|u users IH]; [done|].
  rewrite filter_cons. case_decide as Hd.
  - exfalso. apply Hd. apply elem_of_assignedUserIds, H. left.
  - apply IH. intros u' Hu'. apply H. by right.
Qed.

Lemma assign_nothing_to_place users settings ts :
  unassignedUsers users ts = [] → assignUsersToTables users settings ts = ts.
Proof.
  intros H. unfold assignUsersToTables. rewrite H.
  by destruct (default false (considerLocation settings)).
Qed.

(** ** No double seating *)

Lemma elem_of_seatedIds x ts :
  x ∈ seatedIds ts ↔ ∃ i t, ts !! i = Some t ∧ x ∈ Table.ids t.
Proof.
  unfold seatedIds. rewrite list_elem_of_bind. split.
  - intros (t & Hx & Ht). apply list_elem_of_lookup in Ht as [i Hi]. eauto.
  - intros (i & t & Hi & Hx). exists t. split; [done|].
    by eapply list_elem_of_lookup_2.
Qed.

Lemma noDoubleSeating_nil : noDoubleSeating [].
Proof. intros i j ti tj x Hi. by rewrite lookup_nil in Hi. Qed.

Lemma noDoubleSeating_singleton t : noDoubleSeating [t].
Proof. intros [|i] [|j] ti tj x Hi Hj; done. Qed.

Lemma noDoubleSeating_insert ts i t m :
  noDoubleSeating ts → ts !! i = Some t → Member.id m ∉ seatedIds ts →
  noDoubleSeating (<[i := Table.push m t]> ts).
Proof.
  intros Hnds Ht Hfresh a b ta tb x Ha Hb Hxa Hxb.
  assert (∀ k tk, <[i := Table.push m t]> ts !! k = Some tk →
            x ∈ Table.ids tk → x = Member.id m ∧ k = i ∨
            ∃ tk', ts !! k = Some tk' ∧ x ∈ Table.ids tk') as Hcase.
  { intros k tk Hk Hx. apply list_lookup_insert_Some in Hk
      as [(-> & <- & _)|[Hne Hk]]; [|eauto].
    unfold Table.ids, Table.push in Hx. simpl in Hx.
    rewrite fmap_app, elem_of_app in Hx. destruct Hx as [Hx|Hx].
    - right. eauto.
    - left. by apply list_elem_of_singleton in Hx. }
  destruct (Hcase _ _ Ha Hxa) as [[-> ->]|(ta' & Ha' & Hxa')];
    destruct (Hcase _ _ Hb Hxb) as [[Heq ->]|(tb' & Hb' & Hxb')]; try done.
  - exfalso. apply Hfresh, elem_of_seatedIds. eauto.
  - exfalso. apply Hfresh, elem_of_seatedIds. subst x. eauto.
  - by apply (Hnds a b ta' tb' x).
Qed.

Lemma noDoubleSeating_app ts1 ts2 :
  noDoubleSeating ts1 → noDoubleSeating ts2 →
  (∀ x, x ∈ seatedIds ts1 → x ∉ seatedIds ts2) →
  noDoubleSeating (ts1 ++ ts2).
Proof.
  intros H1 H2 Hdisj a b ta tb x Ha Hb Hxa Hxb.
  apply lookup_app_Some in Ha as [Ha|[Hla Ha]];
    apply lookup_app_Some in Hb as [Hb|[Hlb Hb]].
  - by apply (H1 a b ta tb x).
  - exfalso. apply (Hdisj x); apply elem_of_seatedIds; eauto.
  - exfalso. apply (Hdisj x); apply elem_of_seatedIds; eauto.
  - pose proof (H2 _ _ _ _ _ Ha Hb Hxa Hxb). lia.
Qed.

Lemma noDoubleSeating_placeUser cap ts u :
  noDoubleSeating ts → User.id u ∉ seatedIds ts →
  noDoubleSeating (placeUser cap ts u).
Proof.
  intros Hnds Hfresh.
  destruct (placeUser_cases cap ts u) as [(i & t & Ht & _ & ->)| ->].
  - by apply noDoubleSeating_insert.
  - apply noDoubleSeating_app; [done | apply noDoubleSeating_singleton |].
    intros x Hx Hx'. apply Hfresh.
    change (seatedIds [seatedNew u (length ts)]) with [User.id u] in Hx'.
    apply list_elem_of_singleton in Hx'. by subst.
Qed.

Lemma noDoubleSeating_assignRoundRobin cap us : ∀ ts,
  noDoubleSeating ts → NoDup (User.id <$> us) →
  (∀ x, x ∈ User.id <$> us → x ∉ seatedIds ts) →
  noDoubleSeating (assignRoundRobin us ts cap).
Proof.
  unfold assignRoundRobin.
  induction us as [|u us IH]; intros ts Hnds Hnodup Hfresh; [done|].
  cbn [foldl]. rewrite fmap_cons in Hnodup, Hfresh.
  apply NoDup_cons in Hnodup as [Hu Hnodup].
  apply IH; [|done|].
  - apply noDoubleSeating_placeUser; [done|]. apply Hfresh. left.
  - intros x Hx. rewrite seatedIds_placeUser, elem_of_app.
    intros [Hin|Hin].
    + revert Hin. apply Hfresh. by right.
    + apply list_elem_of_singleton in Hin. by subst.
Qed.

Lemma noDoubleSeating_fillGroups cap groups : ∀ ts,
  noDoubleSeating ts → NoDup (User.id <$> groupedUsers groups) →
  (∀ x, x ∈ User.id <$> groupedUsers groups → x ∉ seatedIds ts) →
  noDoubleSeating (fillGroups cap ts groups).
Proof.
  unfold fillGroups, groupedUsers.
  induction groups as [|[k us] rest IH]; intros ts Hnds Hnodup Hfresh;
    [done|].
  cbn [foldl]. rewrite bind_cons, fmap_app in Hnodup, Hfresh.
  cbn [snd] in *.
  apply NoDup_app in Hnodup as (Hus & Hcross & Hrest).
  apply IH; [|done|].
  - apply noDoubleSeating_app; [done| |].
    + apply noDoubleSeating_assignRoundRobin;
        [apply noDoubleSeating_nil | done |].
      intros x _. change (seatedIds []) with (@nil Id). apply not_elem_of_nil.
    + intros x Hx. rewrite seatedIds_assignRoundRobin.
      change (seatedIds []) with (@nil Id). rewrite app_nil_l.
      intros Hin. revert Hx. apply Hfresh, elem_of_app. by left.
  - intros x Hx.
    rewrite seatedIds_app, seatedIds_assignRoundRobin, elem_of_app.
    change (seatedIds []) with (@nil Id). rewrite app_nil_l.
    intros [Hin|Hin].
    + revert Hin. apply Hfresh, elem_of_app. by right.
    + by apply (Hcross x).
Qed.

Lemma NoDup_unassigned users ts :
  NoDup (User.id <$> users) → NoDup (User.id <$> unassignedUsers users ts).
Proof.
  intros H. eapply sublist_NoDup; [exact H|].
  apply fmap_sublist, sublist_filter.
Qed.

Lemma unassigned_not_seated users ts x :
  x ∈ User.id <$> unassignedUsers users ts → x ∉ seatedIds ts.
Proof.
  intros (u & -> & Hu)%list_elem_of_fmap.
  by apply elem_of_unassignedUsers in Hu as [_ ?].
Qed.

Lemma noDoubleSeating_assign users settings ts :
  NoDup (User.id <$> users) → noDoubleSeating ts →
  noDoubleSeating (assignUsersToTables users settings ts).
Proof.
  intros Hnodup Hnds. unfold assignUsersToTables.
  pose proof (NoDup_unassigned users ts Hnodup) as Hun.
  destruct (default false (considerLocation settings)).
  - unfold assignByLocation.
    apply (noDoubleSeating_fillGroups _ (locationGroups _)); [done| |].
    + by rewrite locationGroups_users.
    + intros x. rewrite locationGroups_users. apply unassigned_not_seated.
  - apply noDoubleSeating_assignRoundRobin; [done..|].
    apply unassigned_not_seated.
Qed.

(** ** Capacity *)

Lemma withinCapacity_placeUser cap ts u :
  1 ≤ cap → withinCapacity cap ts → withinCapacity cap (placeUser cap ts u).
Proof.
  intros Hcap Hts. unfold withinCapacity in *.
  destruct (placeUser_cases cap ts u) as [(i & t & Ht & Hlt & ->)| ->].
  - apply Forall_insert; [done|]. unfold Table.size, Table.push in *. simpl.
    rewrite length_app. simpl. lia.
  - apply Forall_app. split; [done|]. by repeat constructor.
Qed.

Lemma withinCapacity_assignRoundRobin cap us : ∀ ts,
  1 ≤ cap → withinCapacity cap ts →
  withinCapacity cap (assignRoundRobin us ts cap).
Proof.
  unfold assignRoundRobin.
  induction us as [|u us IH]; intros ts Hcap Hts; [done|].
  cbn [foldl]. apply IH; [done|]. by apply withinCapacity_placeUser.
Qed.

Lemma withinCapacity_fillGroups cap groups : ∀ ts,
  1 ≤ cap → withinCapacity cap ts →
  withinCapacity cap (fillGroups cap ts groups).
Proof.
  unfold fillGroups.
  induction groups as [|[k us] rest IH]; intros ts Hcap Hts; [done|].
  cbn [foldl]. apply IH; [done|]. apply Forall_app. split; [done|].
  apply withinCapacity_assignRoundRobin; [done | constructor].
Qed.

Lemma withinCapacity_assign users settings ts :
  1 ≤ capOf (maxPeoplePerTable settings) →
  withinCapacity (capOf (maxPeoplePerTable settings)) ts →
  withinCapacity (capOf (maxPeoplePerTable settings))
                 (assignUsersToTables users settings ts).
Proof.
  intros Hcap Hts. unfold assignUsersToTables.
  destruct (default false (considerLocation settings)).
  - by apply (withinCapacity_fillGroups _ (locationGroups _)).
  - by apply withinCapacity_assignRoundRobin.
Qed.

End Assign.

(** * shuffleTables *)

Section Shuffle.

Lemma randomIndex_le (r : Q) (i : nat) :
  (0 <= r)%Q → (r < 1)%Q → randomIndex r i ≤ i.
Proof.
  intros H0 H1. unfold randomIndex.
  set (n := inject_Z (Z.of_nat (i + 1))).
  assert (0 < n)%Q as Hn.
  { change (inject_Z 0 < n)%Q. unfold n. rewrite <- Zlt_Qlt. lia. }
  assert (Qfloor (r * n) < Z.of_nat (i + 1))%Z as Hlt.
  { rewrite Zlt_Qlt. eapply Qle_lt_trans; [apply Qfloor_le|].
    fold n. rewrite <- (Qmult_1_l n) at 2. by apply Qmult_lt_compat_r. }
  lia.
Qed.

Lemma swap_Permutation {A} (a : list A) i j : swap a i j ≡ₚ a.
Proof.
  unfold swap.
  destruct (a !! i) as [x|] eqn:Hi; [|done].
  destruct (a !! j) as [y|] eqn:Hj; [|done].
  by apply Permutation_insert_swap.
Qed.

Lemma fisherYates_Permutation {A} random i : ∀ k (a : list A),
  fisherYates random k i a ≡ₚ a.
Proof.
  induction i as [|i IH]; intros k a; cbn [fisherYates]; [done|].
  by rewrite IH, swap_Permutation.
Qed.

Lemma collectMembers_bind ts : collectMembers ts = seatedMembers ts.
Proof.
  unfold collectMembers, seatedMembers.
  enough (∀ acc, foldl (λ allUsers table, allUsers ++ Table.members table)
                   acc ts = acc ++ ts ≫= Table.members) as H by apply (H []).
  induction ts as [|t ts IH]; intros acc; cbn [foldl].
  - by rewrite app_nil_r.
  - rewrite IH. by rewrite <- app_assoc.
Qed.

Lemma chunkLoop_done fuel l cap i acc :
  length l ≤ i → chunkLoop fuel l cap i acc = Some acc.
Proof.
  intros Hi. destruct fuel; simpl; case_decide; done || lia.
Qed.

Lemma chunkLoop_step fuel l cap i acc :
  i < length l →
  chunkLoop (S fuel) l cap i acc =
  chunkLoop fuel l cap (i + cap)
    (acc ++ [Table.mk ("table-" +:+ pretty (length acc + 1))
                      ("Table " +:+ pretty (length acc + 1))
                      (slice i (i + cap) l)]).
Proof. intros Hi. simpl. case_decide; done || lia. Qed.

Lemma chunkLoop_spec l cap : 1 ≤ cap → ∀ n i acc,
  length l - i ≤ n →
  ∃ new,
    (∀ fuel, length l - i ≤ fuel →
       chunkLoop fuel l cap i acc = Some (acc ++ new)) ∧
    seatedMembers new = drop i l ∧
    fullExceptLast cap new ∧
    freshlyNamed (length acc) new.
Proof.
  intros Hcap. induction n as [|n IH]; intros i acc Hn.
  - exists []. split; [|split; [|split]].
    + intros fuel _. rewrite app_nil_r. apply chunkLoop_done. lia.
    + rewrite drop_ge by lia. done.
    + intros k t Hk. by rewrite lookup_nil in Hk.
    + intros k t Hk. by rewrite lookup_nil in Hk.
  - destruct (decide (i < length l)) as [Hlt|Hge].
    2:{ apply (IH i acc). lia. }
    set (t0 := Table.mk ("table-" +:+ pretty (length acc + 1))
                        ("Table " +:+ pretty (length acc + 1))
                        (slice i (i + cap) l)).
    destruct (IH (i + cap) (acc ++ [t0]))
      as (new & Hrun & Hmem & Hfull & Hname); [lia|].
    assert (Table.size t0 = cap `min` (length l - i)) as Hsize.
    { unfold Table.size, t0, slice. simpl.
      rewrite length_take, length_drop. lia. }
    exists (t0 :: new). split; [|split; [|split]].
    + intros [|fuel] Hfuel; [lia|].
      rewrite chunkLoop_step by done. fold t0.
      rewrite Hrun by lia. by rewrite <- app_assoc.
    + unfold seatedMembers in *. rewrite bind_cons, Hmem.
      unfold t0, slice. simpl.
      replace (i + cap - i) with cap by lia.
      rewrite <- drop_drop. apply take_drop.
    + intros [|k] t Hk; simpl in Hk.
      * injection Hk as <-. split; [lia|]. intros Hlen. simpl in Hlen.
        destruct new as [|t1 new']; [simpl in Hlen; lia|].
        destruct (Hfull 0 t1 eq_refl) as [[Hpos _] _].
        assert (length (seatedMembers (t1 :: new')) ≠ 0) as Hne.
        { unfold seatedMembers. rewrite bind_cons, length_app.
          unfold Table.size in Hpos. lia. }
        rewrite Hmem, length_drop in Hne. lia.
      * destruct (Hfull k t Hk) as [Hb Hl]. split; [done|].
        intros Hlen. apply Hl. simpl in Hlen. lia.
    + intros [|k] t Hk; simpl in Hk.
      * injection Hk as <-. simpl. by rewrite Nat.add_0_r.
      * destruct (Hname k t Hk) as [-> ->]. rewrite length_app. simpl.
        by replace (length acc + 1 + k + 1) with (length acc + S k + 1)
          by lia.
Qed.

End Shuffle.

(** * moveUserBetweenTables *)

Lemma findTable_Some ts A i t :
  findTable A ts = Some (i, t) ↔ firstTable ts A i t.
Proof. unfold findTable, firstTable. by rewrite list_find_Some. Qed.

Lemma findTable_None ts A :
  findTable A ts = None ↔ ∀ t, t ∈ ts → Table.id t ≠ A.
Proof.
  unfold findTable. rewrite list_find_None, Forall_forall. done.
Qed.

Lemma findMember_Some ms u k m :
  findMember u ms = Some (k, m) ↔ firstMember ms u k m.
Proof. unfold findMember, firstMember. by rewrite list_find_Some. Qed.

Lemma findMember_None ms u :
  findMember u ms = None ↔ ∀ m, m ∈ ms → Member.id m ≠ u.
Proof.
  unfold findMember. rewrite list_find_None, Forall_forall. done.
Qed.

Lemma move_not_found ts u A B cap :
  tableNotFound ts A B →
  moveUserBetweenTables ts u A B cap = mkMoveResult false ts "Table not found".
Proof.
  intros [H|H]; apply findTable_None in H; unfold moveUserBetweenTables;
    rewrite H; [done|].
  by destruct (findTable A ts) as [[]|].
Qed.

Lemma move_full ts u A B cap f fromT t toT :
  firstTable ts A f fromT → firstTable ts B t toT →
  capOf cap ≤ Table.size toT →
  moveUserBetweenTables ts u A B cap =
  mkMoveResult false ts "Destination table is full".
Proof.
  intros Hf%findTable_Some Ht%findTable_Some Hfull.
  unfold moveUserBetweenTables. rewrite Hf, Ht.
  by rewrite decide_True.
Qed.

Lemma move_user_missing ts u A B cap f fromT t toT :
  firstTable ts A f fromT → firstTable ts B t toT →
  Table.size toT < capOf cap →
  (∀ m, m ∈ Table.members fromT → Member.id m ≠ u) →
  moveUserBetweenTables ts u A B cap =
  mkMoveResult false ts "User not found in source table".
Proof.
  intros Hf%findTable_Some Ht%findTable_Some Hroom Hu%findMember_None.
  unfold moveUserBetweenTables. rewrite Hf, Ht, Hu.
  rewrite decide_False by lia. done.
Qed.

Lemma move_success ts u A B cap f fromT t toT k user :
  firstTable ts A f fromT → firstTable ts B t toT →
  Table.size toT < capOf cap →
  firstMember (Table.members fromT) u k user →
  ∃ ts',
    moveUserBetweenTables ts u A B cap =
      mkMoveResult true ts' "User moved successfully" ∧
    ∀ i, ts' !! i =
         (λ t0, Table.withMembers
                  (movedMembers f t k user i (Table.members t0)) t0)
           <$> ts !! i.
Proof.
  intros Hf Ht Hroom Hk.
  pose proof Hf as [Hfl _].
  apply findTable_Some in Hf, Ht. apply findMember_Some in Hk.
  unfold moveUserBetweenTables. rewrite Hf, Ht, Hk.
  rewrite decide_False by lia. eexists. split; [done|].
  intros i. unfold movedMembers.
  destruct (decide (t = i)) as [<-|Hti].
  - rewrite list_lookup_alter_eq.
    destruct (decide (f = t)) as [<-|Hft].
    + rewrite list_lookup_alter_eq, Hfl. simpl.
      repeat case_decide; done.
    + rewrite list_lookup_alter_ne by done.
      destruct (ts !! t) as [t0|]; simpl; [|done].
      repeat case_decide; done.
  - rewrite list_lookup_alter_ne by done.
    destruct (decide (f = i)) as [<-|Hfi].
    + rewrite list_lookup_alter_eq, Hfl. simpl.
      repeat case_decide; done.
    + rewrite list_lookup_alter_ne by done.
      destruct (ts !! i) as [[]|]; simpl; [|done].
      repeat case_decide; done.
Qed.

(** Exactly one of the four outcomes applies to any call. *)
Lemma move_cases ts u A B cap :
  tableNotFound ts A B ∨
  ∃ f fromT t toT, firstTable ts A f fromT ∧ firstTable ts B t toT ∧
    (capOf cap ≤ Table.size toT ∨
     Table.size toT < capOf cap ∧
     ((∀ m, m ∈ Table.members fromT → Member.id m ≠ u) ∨
      ∃ k user, firstMember (Table.members fromT) u k user)).
Proof.
  destruct (findTable A ts) as [[f fromT]|] eqn:Hf.
  2:{ left. left. by apply findTable_None. }
  destruct (findTable B ts) as [[t toT]|] eqn:Ht.
  2:{ left. right. by apply findTable_None. }
  right. exists f, fromT, t, toT.
  apply findTable_Some in Hf, Ht. do 2 (split; [done|]).
  destruct (decide (capOf cap ≤ Table.size toT)); [by left|right].
  split; [lia|].
  destruct (findMember u (Table.members fromT)) as [[k user]|] eqn:Hk.
  - right. exists k, user. by apply findMember_Some.
  - left. by apply findMember_None.
Qed.

(** The case analysis of a call, in the order of the validations: a
    table not found; both found as [f], [t] and the destination full;
    room but the user missing; the user found at [k]. *)
Ltac move_cases ts u A B cap :=
  destruct (move_cases ts u A B cap)
    as [H|(f & fromT & t & toT & Hf & Ht & [H|[Hroom [H|(k & user & H)]]])].

Lemma move_failure_unchanged ts u A B cap :
  success (moveUserBetweenTables ts u A B cap) = false →
  tables (moveUserBetweenTables ts u A B cap) = ts.
Proof.
  move_cases ts u A B cap.
  - by rewrite (move_not_found _ _ _ _ _ H).
  - by rewrite (move_full _ _ _ _ _ _ _ _ _ Hf Ht H).
  - by rewrite (move_user_missing _ _ _ _ _ _ _ _ _ Hf Ht Hroom H).
  - destruct (move_success _ _ _ _ _ _ _ _ _ _ _ Hf Ht Hroom H)
      as (ts' & -> & _). done.
Qed.

Lemma withinCapacity_move ts u A B cap :
  withinCapacity (capOf cap) ts →
  withinCapacity (capOf cap) (tables (moveUserBetweenTables ts u A B cap)).
Proof.
  intros Hts.
  move_cases ts u A B cap.
  - by rewrite (move_not_found _ _ _ _ _ H).
  - by rewrite (move_full _ _ _ _ _ _ _ _ _ Hf Ht H).
  - by rewrite (move_user_missing _ _ _ _ _ _ _ _ _ Hf Ht Hroom H).
  - destruct (move_success _ _ _ _ _ _ _ _ _ _ _ Hf Ht Hroom H)
      as (ts' & -> & Hlookup). cbn [tables].
    unfold withinCapacity in *. rewrite Forall_lookup in Hts |- *.
    intros i t' Hi. rewrite Hlookup in Hi.
    destruct (ts !! i) as [t0|] eqn:Ht0; [|done].
    injection Hi as <-. specialize (Hts _ _ Ht0).
    unfold Table.size in *. cbn [Table.withMembers Table.members].
    unfold movedMembers.
    destruct Hf as [Hfl _], Ht as [Htl _], H as [Hkl _].
    assert (length (delete k (Table.members fromT))
            = length (Table.members fromT) - 1) as Hdel
      by (apply length_delete; eauto).
    apply lookup_lt_Some in Hkl.
    destruct (decide (i = f)) as [Hif|Hif];
      destruct (decide (i = t)) as [Hit|Hit];
      rewrite ?length_app; simpl.
    + assert (t0 = fromT) as -> by (subst; congruence).
      assert (fromT = toT) as -> by (subst; congruence). lia.
    + assert (t0 = fromT) as -> by (subst; congruence). lia.
    + assert (t0 = toT) as -> by (subst; congruence). lia.
    + done.
Qed.

(** * moveUserBetweenTables over the heap *)

Section MoveHeap.

Lemma alloc_spec o (h : Heap.heap) l h' :
  Heap.alloc o h = (l, h') → h !! l = None ∧ h' = <[l := o]> h.
Proof.
  unfold Heap.alloc. intros [= <- <-]. split; [|done].
  apply not_elem_of_dom, is_fresh.
Qed.

Lemma readTable_Some h c t :
  Heap.readTable h c = Some t ↔
  ∃ m, h !! c = Some (Heap.TableObj (Table.id t) (Table.name t) m) ∧
       h !! m = Some (Heap.MemberArray (Table.members t)).
Proof.
  unfold Heap.readTable. split.
  - destruct (h !! c) as [[| i n m |]|] eqn:Hc; try done.
    destruct (h !! m) as [[| | ms]|] eqn:Hm; try done.
    intros [= <-]. eauto.
  - intros (m & -> & ->). by destruct t.
Qed.

Lemma readTable_mono (h h' : Heap.heap) c t :
  h ⊆ h' → Heap.readTable h c = Some t → Heap.readTable h' c = Some t.
Proof.
  intros Hsub (m & Hc & Hm)%readTable_Some. apply readTable_Some.
  exists m. split; by eapply lookup_weaken.
Qed.

Lemma copyTable_spec (h : Heap.heap) e t :
  Heap.readTable h e = Some t →
  ∃ c m h', Heap.copyTable h e = Some (c, h') ∧
    h !! c = None ∧ h !! m = None ∧ c ≠ m ∧
    h' = <[c := Heap.TableObj (Table.id t) (Table.name t) m]>
           (<[m := Heap.MemberArray (Table.members t)]> h).
Proof.
  intros (m0 & Hc & Hm)%readTable_Some. unfold Heap.copyTable. rewrite Hc, Hm.
  destruct (Heap.alloc (Heap.MemberArray (Table.members t)) h) as [m h1] eqn:Ha1.
  destruct (Heap.alloc (Heap.TableObj (Table.id t) (Table.name t) m) h1)
    as [c h2] eqn:Ha2.
  apply alloc_spec in Ha1 as [Hm_fresh ->].
  apply alloc_spec in Ha2 as [Hc_fresh ->].
  exists c, m, (<[c := Heap.TableObj (Table.id t) (Table.name t) m]>
                 (<[m := Heap.MemberArray (Table.members t)]> h)).
  assert (c ≠ m) as Hne.
  { intros ->. by rewrite lookup_insert_eq in Hc_fresh. }
  repeat split; try done.
  by rewrite lookup_insert_ne in Hc_fresh.
Qed.

Lemma mapCopy_spec elems ts : ∀ h : Heap.heap,
  Forall2 (λ e t, Heap.readTable h e = Some t) elems ts →
  ∃ copies arrs h', Heap.mapCopy h elems = Some (copies, h') ∧
    h ⊆ h' ∧ copiedInto h h' copies arrs ts.
Proof.
  revert ts. induction elems as [|e elems IH]; intros ts h Hread.
  - apply Forall2_nil_inv_l in Hread as ->.
    exists [], [], h. split; [done|]. split; [done|].
    unfold copiedInto. split_and!; try done.
    + constructor.
    + intros l Hl. by apply elem_of_nil in Hl.
  - apply Forall2_cons_inv_l in Hread as (t & ts' & Ht & Hrest & ->).
    destruct (copyTable_spec h e t Ht)
      as (c & m & h1 & Hcopy & Hc & Hm & Hcm & ->).
    set (h1 := <[c := Heap.TableObj (Table.id t) (Table.name t) m]>
                 (<[m := Heap.MemberArray (Table.members t)]> h)) in *.
    assert (h ⊆ h1) as Hsub.
    { unfold h1. etrans; [|apply insert_subseteq].
      - by apply insert_subseteq.
      - by rewrite lookup_insert_ne. }
    destruct (IH ts' h1) as (copies & arrs & h' & Hmap & Hsub' & Hcopied).
    { eapply Forall2_impl; [exact Hrest|]. intros x y.
      by apply readTable_mono. }
    destruct Hcopied as (Hlc & Hla & Hnd & Hfresh & Hcont).
    exists (c :: copies), (m :: arrs), h'.
    split; [|split; [by etrans|]].
    { cbn [Heap.mapCopy]. rewrite Hcopy. simpl. by rewrite Hmap. }
    assert (h1 !! c = Some (Heap.TableObj (Table.id t) (Table.name t) m)) as Hc1
      by apply lookup_insert_eq.
    assert (h1 !! m = Some (Heap.MemberArray (Table.members t))) as Hm1.
    { unfold h1. rewrite lookup_insert_ne by done. apply lookup_insert_eq. }
    unfold copiedInto. split_and!.
    + simpl. by rewrite Hlc.
    + simpl. by rewrite Hla.
    + apply (NoDup_Permutation_proper (c :: m :: copies ++ arrs)).
      { simpl. constructor. apply Permutation_middle. }
      constructor; [|constructor; [|done]].
      * rewrite not_elem_of_cons. split; [done|].
        intros Hin. apply Hfresh in Hin. by rewrite Hin in Hc1.
      * intros Hin. apply Hfresh in Hin. by rewrite Hin in Hm1.
    + intros l Hl.
      assert (l = c ∨ l = m ∨ l ∈ copies ++ arrs) as [->|[->|Hin]]; try done.
      { revert Hl. rewrite !elem_of_app, !elem_of_cons. tauto. }
      apply Hfresh in Hin. eapply lookup_weaken_None; done.
    + intros [|i] c' t'; simpl.
      * intros [= <-] [= <-]. exists m. split; [done|].
        split; by eapply lookup_weaken.
      * intros Hc' Ht'. by apply Hcont.
Qed.
Lemma copiedInto_lookup h0 hh copies arrs ts i t :
  copiedInto h0 hh copies arrs ts → ts !! i = Some t →
  ∃ c m, copies !! i = Some c ∧ arrs !! i = Some m ∧
    hh !! c = Some (Heap.TableObj (Table.id t) (Table.name t) m) ∧
    hh !! m = Some (Heap.MemberArray (Table.members t)).
Proof.
  intros (Hlc & _ & _ & _ & Hcont) Ht.
  destruct (lookup_lt_is_Some_2 copies i) as [c Hc].
  { rewrite Hlc. by eapply lookup_lt_Some. }
  destruct (Hcont _ _ _ Hc Ht) as (m & ? & ? & ?). eauto 10.
Qed.

Lemma copiedInto_Forall2 h0 hh copies arrs ts :
  copiedInto h0 hh copies arrs ts →
  Forall2 (λ c t, Heap.readTable hh c = Some t) copies ts.
Proof.
  intros Hcop. pose proof Hcop as (Hlc & _ & _ & _ & Hcont).
  apply Forall2_same_length_lookup_2; [done|].
  intros i c t Hc Ht. apply readTable_Some.
  destruct (Hcont _ _ _ Hc Ht) as (m & _ & ? & ?). eauto.
Qed.

Lemma copiedInto_readTables h0 hh copies arrs ts result :
  copiedInto h0 hh copies arrs ts →
  hh !! result = Some (Heap.TableArray copies) →
  Heap.readTables hh result = Some ts.
Proof.
  intros Hcop Hres. unfold Heap.readTables. rewrite Hres.
  apply mapM_Some. by eapply copiedInto_Forall2.
Qed.

Lemma copiedInto_membersOf h0 hh copies arrs ts i c t :
  copiedInto h0 hh copies arrs ts →
  copies !! i = Some c → ts !! i = Some t →
  ∃ m, arrs !! i = Some m ∧ Heap.membersOf hh c = Some (m, Table.members t).
Proof.
  intros (_ & _ & _ & _ & Hcont) Hc Ht.
  destruct (Hcont _ _ _ Hc Ht) as (m & Hm & Hoc & Hom).
  exists m. split; [done|]. unfold Heap.membersOf. by rewrite Hoc, Hom.
Qed.

Lemma copiedInto_footprint h0 hh copies arrs ts result :
  copiedInto h0 hh copies arrs ts →
  hh !! result = Some (Heap.TableArray copies) →
  h0 !! result = None →
  ∀ l, l ∈ Heap.footprint hh result → h0 !! l = None.
Proof.
  intros Hcop Hres Hfresh l. unfold Heap.footprint. rewrite Hres.
  pose proof Hcop as (Hlc & _ & _ & Hnew & _).
  rewrite elem_of_cons, elem_of_app. intros [->|[Hl|Hl]]; [done| |].
  - apply Hnew, elem_of_app. by left.
  - apply list_elem_of_omap in Hl as (c & Hc & Hm).
    apply list_elem_of_lookup in Hc as [i Hc].
    destruct (lookup_lt_is_Some_2 ts i) as [t Ht].
    { rewrite <- Hlc. by eapply lookup_lt_Some. }
    destruct (copiedInto_membersOf _ _ _ _ _ _ _ _ Hcop Hc Ht)
      as (m & Hm' & Hmem).
    rewrite Hmem in Hm. simpl in Hm. injection Hm as <-.
    apply Hnew, elem_of_app. right. by eapply list_elem_of_lookup_2.
Qed.

Lemma findTable_refines h0 hh copies arrs ts A :
  copiedInto h0 hh copies arrs ts →
  Heap.findTable hh A copies =
  match findTable A ts with
  | Some (f, _) => copies !! f
  | None => None
  end.
Proof.
  intros Hcop%copiedInto_Forall2. unfold findTable.
  induction Hcop as [|c t copies ts Hc _ IH]; [done|].
  apply readTable_Some in Hc as (m & Hc & _).
  cbn [Heap.findTable list_find]. rewrite Hc.
  destruct (decide (Table.id t = A)) as [Heq|Hne]; [done|].
  rewrite IH. by destruct (list_find _ ts) as [[f ft]|].
Qed.

Lemma copiedInto_insert_fresh h0 hh copies arrs ts l o :
  copiedInto h0 hh copies arrs ts → hh !! l = None →
  copiedInto h0 (<[l := o]> hh) copies arrs ts.
Proof.
  intros (Hlc & Hla & Hnd & Hnew & Hcont) Hl.
  unfold copiedInto. split_and!; try done.
  intros i c t Hc Ht. destruct (Hcont _ _ _ Hc Ht) as (m & Hm & Hoc & Hom).
  exists m. split; [done|].
  split; (rewrite lookup_insert_ne; [done|]); intros ->; congruence.
Qed.

(** Writing the member arrays of a successful move. *)
Lemma copiedInto_moved h0 hh copies arrs ts ts' f t k user fromT
    fromArr toArr toMs :
  copiedInto h0 hh copies arrs ts →
  ts !! f = Some fromT →
  arrs !! f = Some fromArr → arrs !! t = Some toArr →
  (∀ i, ts' !! i =
        (λ t0, Table.withMembers
                 (movedMembers f t k user i (Table.members t0)) t0)
          <$> ts !! i) →
  (∀ toT, ts !! t = Some toT →
     toMs = if decide (t = f) then delete k (Table.members fromT)
            else Table.members toT) →
  copiedInto h0
    (<[toArr := Heap.MemberArray (toMs ++ [user])]>
       (<[fromArr := Heap.MemberArray (delete k (Table.members fromT))]> hh))
    copies arrs ts'.
Proof.
  intros (Hlc & Hla & Hnd & Hnew & Hcont) Hf Haf Hat Hts' HtoMs.
  assert (length ts' = length ts) as Hlen.
  { apply Nat.le_antisymm; apply Nat.nlt_ge; intros Hlt.
    - destruct (lookup_lt_is_Some_2 ts' (length ts)) as [x Hx]; [lia|].
      rewrite Hts', lookup_ge_None_2 in Hx; done.
    - destruct (lookup_lt_is_Some_2 ts (length ts')) as [x Hx]; [lia|].
      pose proof (Hts' (length ts')) as Hn.
      rewrite Hx, lookup_ge_None_2 in Hn; done. }
  apply NoDup_app in Hnd as (Hndc & Hdisj & Hnda).
  unfold copiedInto.
  split_and!; [congruence | congruence | by apply NoDup_app | done |].
  intros i c t' Hc Ht'. rewrite Hts' in Ht'.
  destruct (ts !! i) as [t0|] eqn:Ht0; [|done].
  injection Ht' as <-. cbn [Table.withMembers Table.id Table.name Table.members].
  destruct (Hcont _ _ _ Hc Ht0) as (m & Hm & Hoc & Hom).
  exists m. split; [done|].
  assert (∀ j a, arrs !! j = Some a → c ≠ a) as Hca.
  { intros j a Hj ->. apply (Hdisj a); by eapply list_elem_of_lookup_2. }
  split.
  - rewrite !lookup_insert_ne; [done| |].
    + intros Heq. by apply (Hca f fromArr Haf).
    + intros Heq. by apply (Hca t toArr Hat).
  - unfold movedMembers.
    destruct (decide (i = t)) as [->|Hit].
    + assert (m = toArr) as -> by congruence.
      rewrite lookup_insert_eq. do 2 f_equal.
      rewrite (HtoMs _ Ht0).
      destruct (decide (t = f)) as [->|Htf]; [|done].
      congruence.
    + assert (toArr ≠ m) as Hne.
      { intros <-. apply Hit. by eapply (NoDup_lookup arrs). }
      rewrite lookup_insert_ne by done.
      destruct (decide (i = f)) as [->|Hif].
      * assert (m = fromArr) as -> by congruence.
        rewrite lookup_insert_eq. do 2 f_equal. congruence.
      * rewrite lookup_insert_ne; [done|].
        intros <-. apply Hif. by eapply (NoDup_lookup arrs).
Qed.
Lemma move_refines (h : Heap.heap) tl ts u A B cap :
  Heap.readTables h tl = Some ts →
  ∃ r h', Heap.moveUserBetweenTables h tl u A B cap = Some (r, h') ∧
    Heap.success r = success (moveUserBetweenTables ts u A B cap) ∧
    Heap.message r = message (moveUserBetweenTables ts u A B cap) ∧
    Heap.readTables h' (Heap.tables r)
      = Some (tables (moveUserBetweenTables ts u A B cap)) ∧
    (∀ l o, h !! l = Some o → h' !! l = Some o) ∧
    (∀ l, l ∈ Heap.footprint h' (Heap.tables r) → h !! l = None).
Proof.
  intros Hread. unfold Heap.readTables in Hread.
  destruct (h !! tl) as [[elems| |]|] eqn:Htl; try done.
  apply mapM_Some in Hread.
  destruct (mapCopy_spec elems ts h Hread)
    as (copies & arrs & h1 & Hmap & Hsub & Hcop1).
  unfold Heap.moveUserBetweenTables. rewrite Htl, Hmap. cbn [mbind option_bind].
  destruct (Heap.alloc (Heap.TableArray copies) h1) as [result h2] eqn:Ha.
  apply alloc_spec in Ha as [Hfresh ->].
  set (h2 := <[result := Heap.TableArray copies]> h1).
  assert (copiedInto h h2 copies arrs ts) as Hcop
    by by apply copiedInto_insert_fresh.
  assert (h2 !! result = Some (Heap.TableArray copies)) as Hres
    by apply lookup_insert_eq.
  assert (h !! result = None) as Hres0 by by eapply lookup_weaken_None.
  assert (∀ l o, h !! l = Some o → h2 !! l = Some o) as Hframe.
  { intros l o Hl. unfold h2. rewrite lookup_insert_ne.
    - by eapply lookup_weaken.
    - intros <-. congruence. }
  rewrite !(findTable_refines _ _ _ _ _ _ Hcop).
  assert (∀ msg, ∃ r h',
    Some (Heap.mkMoveResult false result msg, h2) = Some (r, h') ∧
    Heap.success r = false ∧ Heap.message r = msg ∧
    Heap.readTables h' (Heap.tables r) = Some ts ∧
    (∀ l o, h !! l = Some o → h' !! l = Some o) ∧
    (∀ l, l ∈ Heap.footprint h' (Heap.tables r) → h !! l = None)) as Hfail.
  { intros msg. exists (Heap.mkMoveResult false result msg), h2.
    split_and!; try done.
    - by eapply copiedInto_readTables.
    - by eapply copiedInto_footprint. }
  move_cases ts u A B cap.
  all: try (assert (¬ capOf cap ≤ length (Table.members toT)) as Hroom'
              by (unfold Table.size in Hroom; lia)).
  - rewrite (move_not_found _ _ _ _ _ H). cbn [success message tables].
    destruct H as [H|H]; apply findTable_None in H; rewrite H.
    + apply Hfail.
    + destruct (findTable A ts) as [[f ft]|]; [|apply Hfail].
      destruct (copies !! f); apply Hfail.
  - rewrite (move_full _ _ _ _ _ _ _ _ _ Hf Ht H).
    cbn [success message tables].
    pose proof Hf as [Hfl _]. pose proof Ht as [Htl' _].
    apply findTable_Some in Hf, Ht. rewrite Hf, Ht.
    destruct (copiedInto_lookup _ _ _ _ _ _ _ Hcop Hfl)
      as (cf & mf & Hcf & Hmf & _).
    destruct (copiedInto_lookup _ _ _ _ _ _ _ Hcop Htl')
      as (ct & mt & Hct & Hmt & _).
    rewrite Hcf, Hct.
    destruct (copiedInto_membersOf _ _ _ _ _ _ _ _ Hcop Hct Htl')
      as (mt' & _ & ->). cbn [mbind option_bind].
    rewrite decide_True by done. apply Hfail.
  - rewrite (move_user_missing _ _ _ _ _ _ _ _ _ Hf Ht Hroom H).
    cbn [success message tables].
    pose proof Hf as [Hfl _]. pose proof Ht as [Htl' _].
    apply findTable_Some in Hf, Ht. rewrite Hf, Ht.
    destruct (copiedInto_lookup _ _ _ _ _ _ _ Hcop Hfl)
      as (cf & mf & Hcf & Hmf & _).
    destruct (copiedInto_lookup _ _ _ _ _ _ _ Hcop Htl')
      as (ct & mt & Hct & Hmt & _).
    rewrite Hcf, Hct.
    destruct (copiedInto_membersOf _ _ _ _ _ _ _ _ Hcop Hct Htl')
      as (mt' & _ & ->). cbn [mbind option_bind].
    rewrite decide_False by done.
    destruct (copiedInto_membersOf _ _ _ _ _ _ _ _ Hcop Hcf Hfl)
      as (mf' & _ & ->). cbn [mbind option_bind].
    apply findMember_None in H. rewrite H. apply Hfail.
  - destruct (move_success _ _ _ _ _ _ _ _ _ _ _ Hf Ht Hroom H)
      as (ts' & -> & Hts'). cbn [success message tables].
    pose proof Hf as [Hfl _]. pose proof Ht as [Htl' _].
    apply findTable_Some in Hf, Ht. rewrite Hf, Ht.
    destruct (copiedInto_lookup _ _ _ _ _ _ _ Hcop Hfl)
      as (cf & mf & Hcf & Hmf & Hocf & Homf).
    destruct (copiedInto_lookup _ _ _ _ _ _ _ Hcop Htl')
      as (ct & mt & Hct & Hmt & Hoct & Homt).
    rewrite Hcf, Hct.
    destruct (copiedInto_membersOf _ _ _ _ _ _ _ _ Hcop Hct Htl')
      as (mt' & Hmt' & ->). cbn [mbind option_bind].
    rewrite decide_False by done.
    destruct (copiedInto_membersOf _ _ _ _ _ _ _ _ Hcop Hcf Hfl)
      as (mf' & Hmf' & ->). cbn [mbind option_bind].
    assert (mt' = mt) as -> by congruence.
    assert (mf' = mf) as -> by congruence.
    apply findMember_Some in H. rewrite H.
    set (h3 := <[mf := Heap.MemberArray (delete k (Table.members fromT))]> h2).
    set (toMs := if decide (t = f) then delete k (Table.members fromT)
                 else Table.members toT).
    assert (Heap.membersOf h3 ct = Some (mt, toMs)) as ->.
    { unfold Heap.membersOf, h3, toMs.
      destruct Hcop as (_ & _ & Hnd & _ & _).
      apply NoDup_app in Hnd as (_ & Hdisj & Hnda).
      rewrite lookup_insert_ne.
      2:{ intros Heq. apply (Hdisj ct); [by eapply list_elem_of_lookup_2|].
          rewrite <- Heq. by eapply list_elem_of_lookup_2. }
      rewrite Hoct.
      destruct (decide (t = f)) as [->|Htf].
      - assert (mt = mf) as -> by congruence. by rewrite lookup_insert_eq.
      - rewrite lookup_insert_ne; [by rewrite Homt|].
        intros Heq. apply Htf. symmetry in Heq. subst mt. 
        by eapply (NoDup_lookup arrs). }
    cbn [mbind option_bind].
    set (h4 := <[mt := Heap.MemberArray (toMs ++ [user])]> h3).
    assert (copiedInto h h4 copies arrs ts') as Hcop4.
    { unfold h4, h3. eapply copiedInto_moved; try done.
      intros toT' HtoT'. unfold toMs. by assert (toT' = toT) as -> by congruence. }
    assert (h4 !! result = Some (Heap.TableArray copies)) as Hres4.
    { unfold h4, h3. rewrite !lookup_insert_ne; [done|intros <-..]; congruence. }
    eexists _, h4. split_and!; try done.
    + by eapply copiedInto_readTables.
    + intros l o Hl. unfold h4, h3.
      destruct Hcop as (_ & _ & _ & Hnew & _).
      rewrite !lookup_insert_ne; [by apply Hframe| |]; intros <-.
      * rewrite Hnew in Hl; [done|]. apply elem_of_app. right.
        by eapply list_elem_of_lookup_2.
      * rewrite Hnew in Hl; [done|]. apply elem_of_app. right.
        by eapply list_elem_of_lookup_2.
    + by eapply copiedInto_footprint.
Qed.

End MoveHeap.

(** * getTableDistributionStats *)

Section Stats.

(** With at least one user and a positive capacity every field is an
    integer, the number of tables is the ceiling of the quotient, and the
    two kinds of tables account for every user. *)
Lemma stats_consistency (totalUsers : nat) (cap : option nat) :
  1 ≤ totalUsers → 1 ≤ capOf cap →
  ∃ m p e c : Z,
    getTableDistributionStats totalUsers cap
      = mkStats (Int m) (Int p) (Int e) (Int c) ∧
    (Z.of_nat totalUsers ≤ m * Z.of_nat (capOf cap)
       < Z.of_nat totalUsers + Z.of_nat (capOf cap))%Z ∧
    (c * p + e * (p + 1) = Z.of_nat totalUsers)%Z ∧
    (0 ≤ e < m)%Z ∧ (c = m - e)%Z.
Proof.
  intros Hn Hcap. unfold getTableDistributionStats, ceilDiv.
  set (k := capOf cap) in *. set (n := totalUsers) in *.
  rewrite decide_False by lia.
  set (m := (n + k - 1) / k).
  assert (n ≤ m * k < n + k) as Hm.
  { unfold m. pose proof (Nat.div_mod_eq (n + k - 1) k) as Hdm.
    pose proof (Nat.mod_upper_bound (n + k - 1) k ltac:(lia)). nia. }
  assert (1 ≤ m) as Hm1 by nia.
  unfold floorDiv, jsmod. rewrite !decide_False by lia.
  rewrite Z.rem_mod_nonneg by lia. cbn [jssub].
  exists (Z.of_nat m), (Z.of_nat n / Z.of_nat m)%Z,
         (Z.of_nat n mod Z.of_nat m)%Z,
         (Z.of_nat m - Z.of_nat n mod Z.of_nat m)%Z.
  pose proof (Z.div_mod (Z.of_nat n) (Z.of_nat m) ltac:(lia)) as Hdm.
  pose proof (Z.mod_pos_bound (Z.of_nat n) (Z.of_nat m) ltac:(lia)) as Hb.
  split_and!; try done; try lia; nia.
Qed.

End Stats.

(** * Session exit *)

Section SessionExit.

Import Session.

Variable rejects : list Call → Call → option string.

Lemma firstSeat_find tables userId i table :
  list_find (seats userId) tables = Some (i, table)
  ↔ firstSeat tables userId i table.
Proof. unfold firstSeat. by rewrite list_find_Some. Qed.

Lemma nobody_seated_find tables userId :
  list_find (seats userId) tables = None
  ↔ ∀ table, table ∈ tables → ¬ seats userId table.
Proof. by rewrite list_find_None, Forall_forall. Qed.

(** The hook returns normally after at most one call to the store,
    whether or not that call is rejected. *)
Lemma removeUserFromTable_runs tables userId trace :
  ∃ calls,
    removeUserFromTable rejects tables userId trace
      = (trace ++ calls, Returned tt) ∧
    match list_find (seats userId) tables with
    | None => calls = []
    | Some (_, table) =>
        calls =
          [if decide (withoutUser userId table = [])
           then DeleteDoc (id table)
           else SetDoc (id table)
                  (mkTableDoc (id table) (name table)
                              (Some (withoutUser userId table)))]
    end.
Proof.
  unfold removeUserFromTable, tryCatch.
  destruct (list_find (seats userId) tables) as [[i table]|].
  - fold (withoutUser userId table).
    destruct (decide (length (withoutUser userId table) = 0)) as [Hlen|Hlen].
    + apply nil_length_inv in Hlen as Hnil.
      rewrite (decide_True _ _ Hnil). eexists. split; [|done].
      unfold perform. by destruct (rejects trace _).
    + assert (withoutUser userId table ≠ []) as Hnil
        by (intros H; by rewrite H in Hlen).
      rewrite (decide_False _ _ Hnil). eexists. split; [|done].
      unfold perform. by destruct (rejects trace _).
  - exists []. by rewrite app_nil_r.
Qed.

(** [logout] always reaches [signOut], and its outcome is the outcome of
    [signOut]. *)
Lemma logout_signs_out tables currentUser trace :
  ∃ calls,
    logout rejects tables currentUser trace
      = (trace ++ calls ++ [SignOut],
         match rejects (trace ++ calls) SignOut with
         | Some error => Thrown error
         | None => Returned tt
         end) ∧
    match currentUser with
    | Some uid =>
        fst (removeUserFromTable rejects tables uid trace) = trace ++ calls
    | None => calls = []
    end.
Proof.
  unfold logout, tryCatch, bind.
  destruct currentUser as [uid|].
  - destruct (removeUserFromTable_runs tables uid trace) as (calls & -> & _).
    exists calls. unfold perform. rewrite <- app_assoc.
    split; [|done]. by destruct (rejects (trace ++ calls) SignOut).
  - exists []. unfold ret, perform. rewrite !app_nil_r.
    split; [|done]. by destruct (rejects trace SignOut).
Qed.

End SessionExit.

(** * Derived facts used by the properties below *)

Section Derived.

Lemma length_seatedMembers_cons t ts :
  length (seatedMembers (t :: ts)) = Table.size t + length (seatedMembers ts).
Proof. by rewrite seatedMembers_cons, length_app. Qed.

(** What [shuffleTables] returns, for any positive capacity: the loop
    ends within as many steps as there are members. *)
Lemma shuffleTables_spec (cap : option nat) (ts : list Table.t)
    (random : nat → Q) :
  1 ≤ capOf cap →
  ∃ out,
    (∀ fuel, length (seatedMembers ts) ≤ fuel →
       shuffleTables fuel random ts cap = Some out) ∧
    seatedMembers out
      = fisherYates random 0 (length (collectMembers ts) - 1)
                    (collectMembers ts) ∧
    seatedMembers out ≡ₚ seatedMembers ts ∧
    fullExceptLast (capOf cap) out ∧
    freshlyNamed 0 out.
Proof.
  intros Hcap. unfold shuffleTables.
  set (shuffled := fisherYates random 0 (length (collectMembers ts) - 1)
                     (collectMembers ts)).
  assert (shuffled ≡ₚ seatedMembers ts) as Hperm.
  { unfold shuffled. by rewrite fisherYates_Permutation, collectMembers_bind. }
  destruct (chunkLoop_spec shuffled (capOf cap) Hcap
              (length shuffled) 0 []) as (out & Hrun & Hmem & Hfull & Hname);
    [lia|].
  exists out. split_and!; try done.
  - intros fuel Hfuel. rewrite Hrun; [done|].
    rewrite Hperm. lia.
  - by rewrite Hmem.
Qed.

(** With no capacity the loop never ends once there is a member. *)
Lemma chunkLoop_zero_diverges fuel l : ∀ i acc,
  i < length l → chunkLoop fuel l 0 i acc = None.
Proof.
  induction fuel as [|fuel IH]; intros i acc Hi; simpl; case_decide;
    try done; try lia.
  rewrite Nat.add_0_r. by apply IH.
Qed.

Lemma withinCapacity_fullExceptLast cap ts :
  fullExceptLast cap ts → withinCapacity cap ts.
Proof.
  intros Hfull. apply Forall_lookup. intros i t Hi.
  by destruct (Hfull i t Hi) as [[_ Hle] _].
Qed.

Lemma sizes_of_six (out : list Table.t) :
  fullExceptLast 5 out → length (seatedMembers out) = 6 →
  Table.size <$> out = [5; 1].
Proof.
  intros Hfull Hlen.
  destruct out as [|t1 [|t2 [|t3 rest]]].
  - done.
  - rewrite length_seatedMembers_cons in Hlen. simpl in Hlen.
    destruct (Hfull 0 t1 eq_refl) as [? _]. lia.
  - rewrite !length_seatedMembers_cons in Hlen. simpl in Hlen.
    destruct (Hfull 0 t1 eq_refl) as [_ H1]. simpl in H1.
    cbn [fmap list_fmap]. f_equal; [lia|]. f_equal. lia.
  - rewrite !length_seatedMembers_cons in Hlen.
    destruct (Hfull 0 t1 eq_refl) as [_ H1].
    destruct (Hfull 1 t2 eq_refl) as [_ H2]. simpl in H1, H2. lia.
Qed.

Lemma move_fails_false ts u A B cap :
  moveFails ts u A B (capOf cap) →
  moveUserBetweenTables ts u A B cap
  = mkMoveResult false ts (message (moveUserBetweenTables ts u A B cap)).
Proof.
  intros [Hnf|(f & fromT & t & toT & Hf & Ht & [Hfull|Hmiss])].
  - by rewrite (move_not_found _ _ _ _ _ Hnf).
  - by rewrite (move_full _ _ _ _ _ _ _ _ _ Hf Ht Hfull).
  - destruct (decide (capOf cap ≤ Table.size toT)) as [Hfull|Hroom].
    + by rewrite (move_full _ _ _ _ _ _ _ _ _ Hf Ht Hfull).
    + rewrite (move_user_missing _ _ _ _ _ _ _ _ _ Hf Ht); [done|lia|done].
Qed.

(** Every call either fails a validation and returns its input, or
    succeeds and returns the input with the one snapshot moved. *)
Lemma move_outcome ts u A B cap :
  let v := moveUserBetweenTables ts u A B cap in
  (success v = false ∧ tables v = ts ∧ moveFails ts u A B (capOf cap)) ∨
  (success v = true ∧ movedTo ts u A B (tables v) ∧
   ¬ moveFails ts u A B (capOf cap)).
Proof.
  intros v. unfold v.
  move_cases ts u A B cap.
  - left. rewrite (move_not_found _ _ _ _ _ H). split_and!; try done.
    by left.
  - left. rewrite (move_full _ _ _ _ _ _ _ _ _ Hf Ht H).
    split_and!; try done. right. eauto 10.
  - left. rewrite (move_user_missing _ _ _ _ _ _ _ _ _ Hf Ht Hroom H).
    split_and!; try done. right. eauto 10.
  - right.
    destruct (move_success _ _ _ _ _ _ _ _ _ _ _ Hf Ht Hroom H)
      as (ts' & Heq & Hlookup).
    split_and!.
    + by rewrite Heq.
    + rewrite Heq. by exists f, fromT, t, toT, k, user.
    + intros Hfails%move_fails_false. by rewrite Heq in Hfails.
Qed.

Lemma movedTo_length ts u A B out :
  movedTo ts u A B out → length out = length ts.
Proof.
  intros (f & fromT & t & toT & k & user & _ & _ & _ & Hlookup).
  apply Nat.le_antisymm; apply Nat.nlt_ge; intros Hlt.
  - destruct (lookup_lt_is_Some_2 out (length ts)) as [x Hx]; [lia|].
    rewrite Hlookup, lookup_ge_None_2 in Hx; done.
  - destruct (lookup_lt_is_Some_2 ts (length out)) as [x Hx]; [lia|].
    pose proof (Hlookup (length out)) as Hn.
    rewrite Hx, lookup_ge_None_2 in Hn; done.
Qed.

Lemma readTables_frame (h h' : Heap.heap) l ts :
  (∀ l o, h !! l = Some o → h' !! l = Some o) →
  Heap.readTables h l = Some ts → Heap.readTables h' l = Some ts.
Proof.
  intros Hframe. unfold Heap.readTables.
  destruct (h !! l) as [[elems| |]|] eqn:Hl; try done.
  rewrite (Hframe _ _ Hl). rewrite !mapM_Some. intros Hread.
  eapply Forall2_impl; [exact Hread|]. intros c t. apply readTable_mono.
  by apply map_subseteq_spec.
Qed.

(** A member of the result was seated before or is the snapshot of one
    of the users handed in. *)
Lemma new_members_are_snapshots users settings ts m :
  m ∈ seatedMembers (assignUsersToTables users settings ts) →
  m ∈ seatedMembers ts ∨ ∃ u, u ∈ users ∧ m = snapshot u.
Proof.
  rewrite seatedMembers_assign, elem_of_app.
  intros [Hm|Hm]; [by left|right].
  apply list_elem_of_fmap in Hm as (u & -> & Hu).
  apply elem_of_unassignedUsers in Hu as [Hu _]. eauto.
Qed.

(** Round-robin fill keeps a list named by position named that way:
    a table keeps its name when it gains a member, and a new table is
    named after the position it is appended at. *)
Lemma placeUser_freshlyNamed cap ts u :
  freshlyNamed 0 ts → freshlyNamed 0 (placeUser cap ts u).
Proof.
  intros Hnamed.
  destruct (placeUser_cases cap ts u) as [(i & t & Ht & _ & ->)| ->].
  - intros k t' Hk.
    apply list_lookup_insert_Some in Hk as [(-> & <- & _)|[_ Hk]].
    + by apply (Hnamed k t).
    + by apply Hnamed.
  - intros k t' Hk. apply lookup_app_Some in Hk as [Hk|[Hlen Hk]].
    + by apply Hnamed.
    + destruct (k - length ts) as [|n] eqn:Hn; [|done].
      injection Hk as <-. replace (0 + k + 1) with (length ts + 1) by lia.
      done.
Qed.

Lemma assignRoundRobin_freshlyNamed cap us : ∀ ts,
  freshlyNamed 0 ts → freshlyNamed 0 (assignRoundRobin us ts cap).
Proof.
  unfold assignRoundRobin.
  induction us as [|u us IH]; intros ts Hnamed; [done|].
  cbn [foldl]. by apply IH, placeUser_freshlyNamed.
Qed.

Lemma freshlyNamed_NoDup ts : freshlyNamed 0 ts → NoDup (Table.id <$> ts).
Proof.
  intros Hnamed. apply NoDup_alt. intros i j x Hi Hj.
  rewrite list_lookup_fmap in Hi, Hj.
  destruct (ts !! i) as [ti|] eqn:Hti; [|done].
  destruct (ts !! j) as [tj|] eqn:Htj; [|done].
  injection Hi as <-. injection Hj as Heq.
  destruct (Hnamed _ _ Hti) as [Hidi _], (Hnamed _ _ Htj) as [Hidj _].
  rewrite Hidi, Hidj in Heq.
  apply String.app_inj, pretty_nat_inj in Heq. lia.
Qed.

(** Filling from no table at all, without location grouping, does give
    position-derived and pairwise distinct ids. *)
Lemma round_robin_from_empty_names users cap :
  let out := assignUsersToTables users (mkSettings cap (Some false)) [] in
  freshlyNamed 0 out ∧ NoDup (Table.id <$> out).
Proof.
  intros out.
  assert (freshlyNamed 0 out) as Hnamed.
  { apply assignRoundRobin_freshlyNamed. intros k t Hk.
    by rewrite lookup_nil in Hk. }
  split; [done|]. by apply freshlyNamed_NoDup.
Qed.

(** Without a capacity bound of at least one the engine overfills and
    the shuffle does not return. *)
Lemma zero_capacity_overfills :
  Table.size <$> assignUsersToTables [userNamed "a"]
                   (mkSettings (Some 0) (Some false)) [] = [1] ∧
  ∀ fuel random, shuffleTables fuel random seatedA (Some 0) = None.
Proof.
  split; [by vm_compute|]. intros fuel random.
  unfold shuffleTables. apply chunkLoop_zero_diverges.
  erewrite Permutation_length by apply fisherYates_Permutation.
  vm_compute. lia.
Qed.

End Derived.

(** * The properties of the specification *)

(** C1 (capacity invariant).  For a capacity of at least one (the
    settings admit 2 to 20) and input tables that each hold at most
    [maxPeoplePerTable] members, every table returned by
    [assignUsersToTables] (in either location mode), by [shuffleTables]
    (which returns, given as much fuel as there are members) and by
    [moveUserBetweenTables] holds at most [maxPeoplePerTable] members. *)
Theorem capacity_invariant (cap : option nat) (ts : list Table.t) :
  1 ≤ capOf cap → withinCapacity (capOf cap) ts →
  (∀ users considerLoc,
     withinCapacity (capOf cap)
       (assignUsersToTables users (mkSettings cap considerLoc) ts)) ∧
  (∀ random, validRandom random →
     ∃ out,
       (∀ fuel, length (seatedMembers ts) ≤ fuel →
          shuffleTables fuel random ts cap = Some out) ∧
       withinCapacity (capOf cap) out) ∧
  (∀ userId fromTableId toTableId,
     withinCapacity (capOf cap)
       (tables (moveUserBetweenTables ts userId fromTableId toTableId cap))).
Proof.
  intros Hcap Hts. split_and!.
  - intros users considerLoc.
    by apply (withinCapacity_assign users (mkSettings cap considerLoc)).
  - intros random _.
    destruct (shuffleTables_spec cap ts random Hcap)
      as (out & Hrun & _ & _ & Hfull & _).
    exists out. split; [done|]. by apply withinCapacity_fullExceptLast.
  - intros. by apply withinCapacity_move.
Qed.

Lemma capacity_invariant_witness :
  withinCapacity 2
    (assignUsersToTables abc (mkSettings (Some 2) (Some false)) seatedA) ∧
  withinCapacity 2
    (tables (moveUserBetweenTables seatedA (Some "a"%string)
               "table-1" "table-1" (Some 2))).
Proof.
  assert (1 ≤ capOf (Some 2)) as Hcap by (vm_compute; lia).
  assert (withinCapacity (capOf (Some 2)) seatedA) as Hts
    by (repeat constructor).
  split.
  - exact (proj1 (capacity_invariant (Some 2) seatedA Hcap Hts)
             abc (Some false)).
  - exact (proj2 (proj2 (capacity_invariant (Some 2) seatedA Hcap Hts))
             (Some "a"%string) "table-1"%string "table-1"%string).
Defined.

(** C2 (no duplicate seating).  When the users have pairwise distinct
    ids and no id is in two tables of [existingTables], no id is in the
    member list of two tables of the result of [assignUsersToTables];
    [settings] is arbitrary, so this holds with [considerLocation] false
    and true. *)
Theorem no_duplicate_seating (users : list User.t) (settings : Settings)
    (existingTables : list Table.t) :
  NoDup (User.id <$> users) → noDoubleSeating existingTables →
  noDoubleSeating (assignUsersToTables users settings existingTables).
Proof. apply noDoubleSeating_assign. Qed.

Lemma no_duplicate_seating_witness :
  noDoubleSeating
    (assignUsersToTables abc (mkSettings (Some 2) (Some true)) seatedA).
Proof.
  apply (no_duplicate_seating abc (mkSettings (Some 2) (Some true)) seatedA).
  - apply (bool_decide_unpack _). by vm_compute.
  - intros [|i] [|j] ti tj x Hi Hj; vm_compute in Hi, Hj; done.
Defined.

(** C3 (round-robin fill).  With [considerLocation] false the unassigned
    users are placed one after the other by [placeUser]; a user goes to
    the table with the fewest members among those with fewer than
    [maxPeoplePerTable], the first of them in creation order, and, when
    there is no such table, to a new table appended to the list; the
    three users a, b, c with capacity 2 and no existing table give two
    tables, of 2 members and of 1. *)
Theorem round_robin_policy :
  (∀ cap users ts,
     assignUsersToTables users (mkSettings (Some cap) (Some false)) ts
     = foldl (placeUser cap) ts (unassignedUsers users ts)) ∧
  (∀ cap ts u i, leastFilled cap ts i →
     placeUser cap ts u = alter (Table.push (snapshot u)) i ts) ∧
  (∀ cap ts u, (∀ i, ¬ leastFilled cap ts i) →
     placeUser cap ts u = ts ++ [seatedNew u (length ts)]) ∧
  assignUsersToTables abc (mkSettings (Some 2) (Some false)) []
  = [Table.mk "table-1" "Table 1"
       [snapshot (userNamed "a"); snapshot (userNamed "b")];
     Table.mk "table-2" "Table 2" [snapshot (userNamed "c")]].
Proof.
  split_and!.
  - done.
  - intros. by apply placeUser_target.
  - intros cap ts u Hnone. apply placeUser_fresh.
    destruct (leastFilled_or_full cap ts) as [[i Hi]|Hfull]; [|done].
    by destruct (Hnone i).
  - by vm_compute.
Qed.

Lemma round_robin_policy_witness :
  placeUser 2 seatedA (userNamed "b")
  = [Table.mk "table-1" "Table 1"
       [snapshot (userNamed "a"); snapshot (userNamed "b")]].
Proof.
  apply (proj1 (proj2 round_robin_policy) 2 seatedA (userNamed "b") 0).
  exists (Table.mk "table-1" "Table 1" [snapshot (userNamed "a")]).
  split_and!.
  - reflexivity.
  - vm_compute. lia.
  - intros [|j] t' Hj; vm_compute in Hj; [|done].
    injection Hj as <-. intros _. vm_compute. lia.
  - intros j t' _ _ _. lia.
Defined.

(** C4 (move correctness).  Run on a heap in which [tablesRef] reads as
    the table list [ts], [moveUserBetweenTables] returns a result whose
    table list reads as [out], where: the function on values computes
    the same result; on success [out] is [ts] with the snapshot of [u]
    removed from the first table with id [A] and appended to the first
    table with id [B], every table kept (also an emptied source); the
    call fails exactly on a validation failure (a table not found, the
    destination full, the user not in the source) and then [out] is
    [ts]; and the result is a copy: its array, table objects and member
    arrays are objects the input heap does not have, and every object of
    the input heap is unchanged. *)
Theorem move_correctness (h : Heap.heap) (tablesRef : Heap.loc)
    (ts : list Table.t) (u : Id) (A B : string) (cap : option nat) :
  Heap.readTables h tablesRef = Some ts →
  ∃ r h' out,
    Heap.moveUserBetweenTables h tablesRef u A B cap = Some (r, h') ∧
    Heap.readTables h' (Heap.tables r) = Some out ∧
    moveUserBetweenTables ts u A B cap
      = mkMoveResult (Heap.success r) out (Heap.message r) ∧
    (Heap.success r = true → movedTo ts u A B out ∧ length out = length ts) ∧
    (Heap.success r = false ↔ moveFails ts u A B (capOf cap)) ∧
    (Heap.success r = false → out = ts) ∧
    (∀ l, l ∈ Heap.footprint h' (Heap.tables r) → h !! l = None) ∧
    (∀ l o, h !! l = Some o → h' !! l = Some o) ∧
    Heap.readTables h' tablesRef = Some ts.
Proof.
  intros Hread.
  destruct (move_refines h tablesRef ts u A B cap Hread)
    as (r & h' & Hrun & Hs & Hm & Hout & Hframe & Hfoot).
  exists r, h', (tables (moveUserBetweenTables ts u A B cap)).
  split_and!; try done.
  - rewrite Hs, Hm. by destruct (moveUserBetweenTables ts u A B cap).
  - rewrite Hs. intros Htrue.
    destruct (move_outcome ts u A B cap) as [(Hf & _)|(_ & Hmoved & _)];
      [congruence|].
    split; [done|]. by eapply movedTo_length.
  - rewrite Hs.
    destruct (move_outcome ts u A B cap) as [(Hf & _ & ?)|(Ht & _ & ?)];
      [done|]. split; [congruence|done].
  - rewrite Hs. intros Hfalse.
    destruct (move_outcome ts u A B cap) as [(_ & ? & _)|(Ht & _)];
      [done|congruence].
  - by eapply readTables_frame.
Qed.

Lemma move_correctness_witness :
  ∃ r h' out,
    Heap.moveUserBetweenTables moveHeap 1%positive (Some "u1"%string)
      "t1" "t2" (Some 5) = Some (r, h') ∧
    Heap.readTables h' (Heap.tables r) = Some out ∧
    Heap.readTables h' 1%positive = Some twoTables.
Proof.
  destruct (move_correctness moveHeap 1%positive twoTables
              (Some "u1"%string) "t1" "t2" (Some 5))
    as (r & h' & out & Hrun & Hout & _ & _ & _ & _ & _ & _ & Hin).
  - by vm_compute.
  - by exists r, h', out.
Defined.

(** C5 (shuffle is a permutation).  For a capacity of at least one and
    any values of [Math.random], [shuffleTables] returns a table list
    [out] whose member ids are a permutation of the member ids of the
    input (so the member count is the same); [out] is the permuted
    sequence cut into tables named by position, each of exactly
    [maxPeoplePerTable] members except possibly the last, which is not
    empty; six members with capacity 5 give tables of 5 and 1. *)
Theorem shuffle_is_permutation (cap : option nat) (ts : list Table.t)
    (random : nat → Q) :
  1 ≤ capOf cap → validRandom random →
  ∃ out,
    (∀ fuel, length (seatedMembers ts) ≤ fuel →
       shuffleTables fuel random ts cap = Some out) ∧
    seatedIds out ≡ₚ seatedIds ts ∧
    length (seatedMembers out) = length (seatedMembers ts) ∧
    seatedMembers out
      = fisherYates random 0 (length (collectMembers ts) - 1)
                    (collectMembers ts) ∧
    fullExceptLast (capOf cap) out ∧
    freshlyNamed 0 out ∧
    (capOf cap = 5 → length (seatedMembers ts) = 6 →
       Table.size <$> out = [5; 1]).
Proof.
  intros Hcap _.
  destruct (shuffleTables_spec cap ts random Hcap)
    as (out & Hrun & Hseq & Hperm & Hfull & Hname).
  exists out. split_and!; try done.
  - by rewrite !seatedIds_members, Hperm.
  - by rewrite Hperm.
  - intros Hfive Hsix. rewrite Hfive in Hfull.
    apply sizes_of_six; [done|]. by rewrite Hperm.
Qed.

Lemma shuffle_is_permutation_witness :
  ∃ out,
    (∀ fuel, length (seatedMembers sixAtOneTable) ≤ fuel →
       shuffleTables fuel (λ _, 1 # 2) sixAtOneTable (Some 5) = Some out) ∧
    seatedIds out ≡ₚ seatedIds sixAtOneTable ∧
    Table.size <$> out = [5; 1].
Proof.
  destruct (shuffle_is_permutation (Some 5) sixAtOneTable (λ _, 1 # 2))
    as (out & Hrun & Hperm & _ & _ & _ & _ & Hsizes).
  - vm_compute. lia.
  - intros k. unfold Qle, Qlt. simpl. lia.
  - exists out. split_and!; [done | done |].
    apply Hsizes; reflexivity.
Defined.

(** C6 (idempotent re-filter).  Calling [assignUsersToTables] again on
    its own result, with the same users and settings, returns that
    result unchanged, in either location mode. *)
Theorem assign_idempotent (users : list User.t) (settings : Settings)
    (existingTables : list Table.t) :
  let first := assignUsersToTables users settings existingTables in
  assignUsersToTables users settings first = first.
Proof.
  intros first. apply assign_nothing_to_place, unassignedUsers_nil.
  intros u Hu. by apply assign_seats_all.
Qed.

(** C7 (distribution statistics), at the input where the code departs
    from it: with no user [getTableDistributionStats] divides by the
    zero it has just computed, with no guard, and returns [NaN] in three
    of its four fields; the scenario with 7 users and capacity 5 is as
    specified.  ([stats_consistency] is the property for one user or
    more.) *)
Theorem stats_zero_users_unguarded :
  getTableDistributionStats 0 (Some 5) = mkStats (Int 0) NaN NaN NaN ∧
  getTableDistributionStats 0 None = mkStats (Int 0) NaN NaN NaN ∧
  getTableDistributionStats 7 (Some 5)
    = mkStats (Int 2) (Int 3) (Int 1) (Int 1).
Proof. by vm_compute. Qed.

(** C8, as stated, fails: a user record without an id handed to
    [assignUsersToTables] is seated like any other. *)
Lemma malformed_id_is_seated :
  ¬ skipsMalformed [bare None None] (mkSettings None None) [].
Proof.
  intros Hskip.
  specialize (Hskip (seatedNew (bare None None) 0) (snapshot (bare None None))).
  apply not_elem_of_nil in Hskip; [done| | |done].
  - vm_compute. left.
  - vm_compute. left.
Qed.

(** C8 (malformed ids), amended.  [assignUsersToTables] is total and
    checks no id: every user record it is given is seated, its snapshot
    being added unless a member with its id was seated before, whether
    the id is missing, empty or proper.  The records without a proper id
    are dropped by the callers, which filter the user list first; on a
    list filtered that way the result has no member with a missing or
    empty id that was not seated before. *)
Theorem malformed_id_not_skipped (users : list User.t) (settings : Settings)
    (existingTables : list Table.t) :
  (∀ u, u ∈ users →
     User.id u
       ∈ seatedIds (assignUsersToTables users settings existingTables)) ∧
  (∀ u, u ∈ users → User.id u ∉ seatedIds existingTables →
     snapshot u
       ∈ seatedMembers (assignUsersToTables users settings existingTables)) ∧
  skipsMalformed (validUsers users) settings existingTables.
Proof.
  split_and!.
  - intros u Hu. by apply assign_seats_all.
  - intros u Hu Hfree. rewrite seatedMembers_assign, elem_of_app. right.
    apply list_elem_of_fmap. exists u. split; [done|].
    by apply elem_of_unassignedUsers.
  - intros t m Ht Hm Hbad.
    destruct (new_members_are_snapshots (validUsers users) settings
                existingTables m) as [Hold|(u & Hu & ->)]; [|done|].
    + unfold seatedMembers. apply list_elem_of_bind. eauto.
    + apply list_elem_of_filter in Hu as [Hu _].
      change (Member.id (snapshot u)) with (User.id u) in Hbad. congruence.
Qed.

Lemma malformed_id_not_skipped_witness :
  User.id (bare (Some ""%string) None)
    ∈ seatedIds (assignUsersToTables
                   [bare None None; bare (Some ""%string) None]
                   (mkSettings None None) []).
Proof.
  apply (proj1 (malformed_id_not_skipped
                  [bare None None; bare (Some ""%string) None]
                  (mkSettings None None) [])).
  right. left.
Defined.

(** C9 (table ids), at inputs where the code departs from it: two
    location buckets each start their numbering at 1 and give two tables
    with the id table-1; a new table appended after a surviving table-2
    is named table-2 as well; and with location grouping a new table
    placed second in the result is named table-1. *)
Theorem table_ids_collide :
  Table.id <$> assignUsersToTables [cairo; giza]
                 (mkSettings (Some 5) (Some true)) []
    = ["table-1"; "table-1"]%string ∧
  Table.id <$> assignUsersToTables [userNamed "d"]
                 (mkSettings (Some 2) (Some false)) fullTable2
    = ["table-2"; "table-2"]%string ∧
  Table.id <$> assignUsersToTables [userNamed "d"]
                 (mkSettings (Some 2) (Some true)) fullTable2
    = ["table-2"; "table-1"]%string.
Proof. by vm_compute. Qed.

(** C10 (session exit).  Whatever the store and the sign-out service
    answer, [removeUserFromTable] returns normally after at most one
    call: none when no table of the snapshot seats the user; otherwise,
    for the first table that seats the user and its member list without
    the user's snapshots, a delete of that table's document when the
    list is empty and else a write of the table with exactly that list.
    [logout] then always calls [signOut], and ends as [signOut] ends. *)
Theorem session_exit_cleanup
    (rejects : list Session.Call → Session.Call → option string)
    (tables : list Session.TableDoc) (userId : Id)
    (trace : list Session.Call) :
  ∃ calls,
    Session.removeUserFromTable rejects tables userId trace
      = (trace ++ calls, Session.Returned tt) ∧
    ((∀ table, table ∈ tables → ¬ Session.seats userId table) →
       calls = []) ∧
    (∀ i table, firstSeat tables userId i table →
       let reduced := withoutUser userId table in
       let written :=
         Session.mkTableDoc (Session.id table) (Session.name table)
                            (Some reduced) in
       (∀ m, m ∈ reduced ↔
             m ∈ default [] (Session.members table) ∧ Member.id m ≠ userId) ∧
       (reduced = [] →
          calls = [Session.DeleteDoc (Session.id table)] ∧
          ∀ store, Session.commit (Session.DeleteDoc (Session.id table)) store
                     !! Session.id table = None) ∧
       (reduced ≠ [] →
          calls = [Session.SetDoc (Session.id table) written] ∧
          ∀ store,
            Session.commit (Session.SetDoc (Session.id table) written) store
              !! Session.id table = Some written)) ∧
    Session.logout rejects tables (Some userId) trace
      = (trace ++ calls ++ [Session.SignOut],
         match rejects (trace ++ calls) Session.SignOut with
         | Some error => Session.Thrown error
         | None => Session.Returned tt
         end).
Proof.
  destruct (removeUserFromTable_runs rejects tables userId trace)
    as (calls & Hrun & Hcalls).
  exists calls. split_and!; try done.
  - intros Hnone%nobody_seated_find. by rewrite Hnone in Hcalls.
  - intros i table Hseat%firstSeat_find reduced written.
    rewrite Hseat in Hcalls. fold reduced in Hcalls. fold written in Hcalls.
    split_and!.
    + intros m. unfold reduced, withoutUser.
      rewrite list_elem_of_filter. tauto.
    + intros Hnil. rewrite decide_True in Hcalls by done.
      split; [done|]. intros store. apply lookup_delete_eq.
    + intros Hnil. rewrite decide_False in Hcalls by done.
      split; [done|]. intros store. apply lookup_insert_eq.
  - destruct (logout_signs_out rejects tables (Some userId) trace)
      as (calls' & Hlogout & Hsame).
    rewrite Hrun in Hsame. cbn [fst] in Hsame.
    by apply app_inv_head in Hsame as ->.
Qed.

Lemma session_exit_cleanup_witness :
  Session.removeUserFromTable offline aloneAtTable1 (Some "a"%string) []
  = ([Session.DeleteDoc "table-1"], Session.Returned tt).
Proof.
  destruct (session_exit_cleanup offline aloneAtTable1 (Some "a"%string) [])
    as (calls & Hrun & _ & Hseat & _).
  destruct (Hseat 0 (Session.mkTableDoc "table-1" "Table 1"
                       (Some [snapshot (userNamed "a")])))
    as (_ & Hdelete & _).
  - split_and!.
    + reflexivity.
    + vm_compute. by left.
    + intros j table' _ Hj. lia.
  - destruct Hdelete as [Hcalls _]; [reflexivity|].
    by rewrite Hrun, Hcalls.
Defined.

(** * Further properties of the code *)

(** ** What an assignment keeps *)

Lemma retains_refl cap ts : retains cap ts ts.
Proof. intros i t Ht. exists t. by split_and!. Qed.

Lemma retains_trans cap ts1 ts2 ts3 :
  retains cap ts1 ts2 → retains cap ts2 ts3 → retains cap ts1 ts3.
Proof.
  intros H12 H23 i t Ht.
  destruct (H12 i t Ht) as (t' & Ht' & Hid & Hname & Hpre & Hfull).
  destruct (H23 i t' Ht') as (t'' & Ht'' & Hid' & Hname' & Hpre' & Hfull').
  exists t''. split_and!; try congruence.
  - by etrans.
  - intros Hcap. rewrite <- (Hfull Hcap). apply Hfull'.
    by rewrite (Hfull Hcap).
Qed.

Lemma retains_app cap ts new : retains cap ts (ts ++ new).
Proof.
  intros i t Ht. exists t. split_and!; try done.
  by apply lookup_app_l_Some.
Qed.

Lemma retains_placeUser cap ts u : retains cap ts (placeUser cap ts u).
Proof.
  destruct (placeUser_cases cap ts u) as [(i & t & Ht & Hlt & ->)| ->].
  - intros k tk Hk. destruct (decide (i = k)) as [<-|Hne].
    + assert (tk = t) as -> by congruence.
      exists (Table.push (snapshot u) t). split_and!; try done.
      * apply list_lookup_insert_eq. by eapply lookup_lt_Some.
      * by apply prefix_app_r.
      * lia.
    + exists tk. rewrite list_lookup_insert_ne by done. by split_and!.
  - apply retains_app.
Qed.

Lemma retains_assignRoundRobin cap us : ∀ ts,
  retains cap ts (assignRoundRobin us ts cap).
Proof.
  unfold assignRoundRobin.
  induction us as [|u us IH]; intros ts; cbn [foldl].
  - apply retains_refl.
  - eapply retains_trans; [apply retains_placeUser | apply IH].
Qed.

Lemma fillGroups_concat cap groups : ∀ ts,
  fillGroups cap ts groups
  = ts ++ concat ((λ g, assignRoundRobin (snd g) [] cap) <$> groups).
Proof.
  unfold fillGroups.
  induction groups as [|g groups IH]; intros ts; cbn [foldl].
  - by rewrite app_nil_r.
  - rewrite IH. by rewrite <- app_assoc.
Qed.

Lemma assignByLocation_app us ts cap :
  assignByLocation us ts cap
  = ts ++ concat ((λ g, assignRoundRobin (snd g) [] cap)
                    <$> locationGroups us).
Proof. apply (fillGroups_concat cap (locationGroups us)). Qed.

Lemma retains_length cap old new : retains cap old new → length old ≤ length new.
Proof.
  intros Hret. destruct old as [|t old _] using rev_ind; [simpl; lia|].
  destruct (Hret (length old) t) as (t' & Ht' & _).
  { by rewrite lookup_app_r, Nat.sub_diag. }
  apply lookup_lt_Some in Ht'. rewrite length_app. simpl. lia.
Qed.

Lemma retains_assign users settings ts :
  retains (capOf (maxPeoplePerTable settings)) ts
          (assignUsersToTables users settings ts).
Proof.
  unfold assignUsersToTables.
  destruct (default false (considerLocation settings)).
  - rewrite assignByLocation_app. apply retains_app.
  - apply retains_assignRoundRobin.
Qed.

(** X1 (assignment never disturbs what is seated).  Every table handed
    to [assignUsersToTables] is still in the result at its position,
    with its id and name and with its members as a prefix of the new
    member list; a table that was already at capacity comes back
    unchanged; the result is never shorter than the input; and with
    location grouping the existing tables are the first tables of the
    result, untouched. *)
Theorem assign_keeps_existing_tables (users : list User.t)
    (settings : Settings) (existingTables : list Table.t) :
  let out := assignUsersToTables users settings existingTables in
  retains (capOf (maxPeoplePerTable settings)) existingTables out ∧
  length existingTables ≤ length out ∧
  (considerLocation settings = Some true →
     take (length existingTables) out = existingTables).
Proof.
  intros out. pose proof (retains_assign users settings existingTables) as Hret.
  split_and!; [done | by eapply retains_length |].
  intros Hloc. unfold out, assignUsersToTables. cbv zeta.
  rewrite Hloc. cbn [default]. rewrite assignByLocation_app.
  apply take_app_length.
Qed.

Lemma assign_keeps_existing_tables_witness :
  take 1 (assignUsersToTables [cairo; giza] (mkSettings (Some 5) (Some true))
            seatedA) = seatedA.
Proof.
  apply (proj2 (proj2 (assign_keeps_existing_tables [cairo; giza]
                         (mkSettings (Some 5) (Some true)) seatedA))).
  reflexivity.
Defined.

(** ** Front-to-back filling *)

Lemma fullExceptLast_nil cap : fullExceptLast cap [].
Proof. intros k t Hk. by rewrite lookup_nil in Hk. Qed.

Lemma fullExceptLast_placeUser cap ts u :
  1 ≤ cap → fullExceptLast cap ts → fullExceptLast cap (placeUser cap ts u).
Proof.
  intros Hcap Hfull.
  destruct (placeUser_cases cap ts u) as [(i & t & Ht & Hlt & Heq)|Heq].
  - rewrite Heq. intros k tk Hk. rewrite length_insert.
    destruct (Hfull i t Ht) as [[Hpos _] Hlast].
    assert (¬ S i < length ts) as Hend by (intros H; specialize (Hlast H); lia).
    apply list_lookup_insert_Some in Hk as [(-> & <- & Hlen)|[Hne Hk]].
    + unfold Table.size, Table.push in *. cbn [Table.members].
      rewrite length_app. simpl. split; [lia|]. intros Hk. lia.
    + by apply Hfull.
  - rewrite Heq. intros k tk Hk. rewrite length_app. simpl.
    assert (Forall (λ t, cap ≤ Table.size t) ts) as Hall.
    { destruct (leastFilled_or_full cap ts) as [[i Hi]|Hall]; [|done].
      rewrite (placeUser_target _ _ u _ Hi) in Heq.
      apply (f_equal length) in Heq.
      rewrite length_alter, length_app in Heq. simpl in Heq. lia. }
    rewrite Forall_lookup in Hall.
    apply lookup_app_Some in Hk as [Hk|[Hlen Hk]].
    + destruct (Hfull k tk Hk) as [[Hpos Hle] _]. specialize (Hall k tk Hk).
      simpl in Hall. split; [lia|]. intros _. lia.
    + destruct (k - length ts) as [|n] eqn:Hn; [|done].
      injection Hk as <-. unfold Table.size. simpl. split; [lia|].
      intros Hk. lia.
Qed.

Lemma fullExceptLast_assignRoundRobin cap us : ∀ ts,
  1 ≤ cap → fullExceptLast cap ts →
  fullExceptLast cap (assignRoundRobin us ts cap).
Proof.
  unfold assignRoundRobin.
  induction us as [|u us IH]; intros ts Hcap Hfull; [done|].
  cbn [foldl]. by apply IH, fullExceptLast_placeUser.
Qed.

Lemma fullExceptLast_tail cap t ts :
  fullExceptLast cap (t :: ts) → fullExceptLast cap ts.
Proof.
  intros Hfull k tk Hk. destruct (Hfull (S k) tk Hk) as [Hb Hl].
  split; [done|]. intros Hlen. apply Hl. simpl. lia.
Qed.

(** The number of tables of a list filled front to back. *)
Lemma fullExceptLast_count cap ts :
  1 ≤ cap → fullExceptLast cap ts →
  length ts = (length (seatedMembers ts) + cap - 1) / cap.
Proof.
  intros Hcap Hfull.
  enough (ts = [] ∨ ∃ last, 1 ≤ last ≤ cap ∧
            length (seatedMembers ts) = (length ts - 1) * cap + last) as Hsum.
  { destruct Hsum as [->|(last & Hlast & Hsum)].
    - simpl. symmetry. apply Nat.div_small. lia.
    - assert (1 ≤ length ts) as Hlen.
      { destruct ts; simpl in *; [|lia]. lia. }
      apply (Nat.div_unique _ _ _ (last - 1)); [lia|]. nia. }
  induction ts as [|t ts IH]; [by left|right].
  destruct (IH (fullExceptLast_tail _ _ _ Hfull)) as [->|(last & Hlast & Hsum)].
  - exists (Table.size t). destruct (Hfull 0 t eq_refl) as [Hb _].
    split; [done|]. rewrite length_seatedMembers_cons. simpl. lia.
  - exists last. split; [done|].
    destruct (Hfull 0 t eq_refl) as [_ Hl].
    assert (1 ≤ length ts) as Hlen.
    { destruct ts; simpl in *; lia. }
    rewrite length_seatedMembers_cons, Hsum, Hl by (simpl; lia).
    simpl. nia.
Qed.

Lemma totalTables_ceil n cap :
  1 ≤ capOf cap →
  totalTables (getTableDistributionStats n cap)
  = Int (Z.of_nat ((n + capOf cap - 1) / capOf cap)).
Proof.
  intros Hcap. unfold getTableDistributionStats, ceilDiv. cbn [totalTables].
  by rewrite decide_False by lia.
Qed.

Lemma unassignedUsers_empty users : unassignedUsers users [] = users.
Proof.
  unfold unassignedUsers. induction users as [|u users IH]; [done|].
  rewrite filter_cons_True; [by rewrite IH|].
  rewrite elem_of_assignedUserIds. apply not_elem_of_nil.
Qed.

(** X2 (round-robin fill packs the tables front to back).  Without
    location grouping and for a capacity of at least one, when no
    existing table is empty and every one but the last is full, the same
    is true of the result of [assignUsersToTables]; its number of tables
    is then the [totalTables] that [getTableDistributionStats] computes
    for the number of seated members; and from no table at all every
    user given is seated. *)
Theorem round_robin_fills_front_to_back (users : list User.t)
    (settings : Settings) (existingTables : list Table.t) :
  let cap := capOf (maxPeoplePerTable settings) in
  let out := assignUsersToTables users settings existingTables in
  1 ≤ cap → considerLocation settings ≠ Some true →
  fullExceptLast cap existingTables →
  fullExceptLast cap out ∧
  totalTables (getTableDistributionStats (length (seatedMembers out))
                 (maxPeoplePerTable settings))
  = Int (Z.of_nat (length out)) ∧
  (existingTables = [] → length (seatedMembers out) = length users).
Proof.
  intros cap out Hcap Hloc Hfull.
  assert (out = assignRoundRobin (unassignedUsers users existingTables)
                  existingTables cap) as Hout.
  { unfold out, assignUsersToTables.
    by destruct (considerLocation settings) as [[]|]. }
  assert (fullExceptLast cap out) as Hfull'.
  { rewrite Hout. by apply fullExceptLast_assignRoundRobin. }
  split_and!; [done| |].
  - rewrite totalTables_ceil by done. do 2 f_equal.
    symmetry. by apply fullExceptLast_count.
  - intros ->. rewrite Hout, seatedMembers_assignRoundRobin.
    by rewrite length_app, length_fmap, unassignedUsers_empty.
Qed.

Lemma round_robin_fills_front_to_back_witness :
  fullExceptLast 2 (assignUsersToTables abc (mkSettings (Some 2) None) seatedA).
Proof.
  apply (round_robin_fills_front_to_back abc (mkSettings (Some 2) None)
           seatedA).
  - vm_compute. lia.
  - discriminate.
  - intros [|k] t Hk; vm_compute in Hk; [|done].
    injection Hk as <-. vm_compute. lia.
Defined.

(** X3 (how many tables a shuffle makes).  For a capacity of at least
    one and random values in the unit interval, [shuffleTables] returns,
    given as much fuel as there are members, as many tables as the
    [totalTables] of [getTableDistributionStats] for the member count;
    their ids are pairwise distinct; and no member gives no table. *)
Theorem shuffle_table_count (cap : option nat) (ts : list Table.t)
    (random : nat → Q) :
  1 ≤ capOf cap → validRandom random →
  ∃ out,
    (∀ fuel, length (seatedMembers ts) ≤ fuel →
       shuffleTables fuel random ts cap = Some out) ∧
    totalTables (getTableDistributionStats (length (seatedMembers ts)) cap)
    = Int (Z.of_nat (length out)) ∧
    NoDup (Table.id <$> out) ∧
    (seatedMembers ts = [] → out = []).
Proof.
  intros Hcap _.
  destruct (shuffleTables_spec cap ts random Hcap)
    as (out & Hrun & _ & Hperm & Hfull & Hname).
  exists out. split_and!; try done.
  - rewrite totalTables_ceil by done. do 2 f_equal.
    rewrite <- Hperm. symmetry. by apply fullExceptLast_count.
  - by apply freshlyNamed_NoDup.
  - intros Hempty. rewrite Hempty in Hperm. apply Permutation_nil_r in Hperm.
    destruct out as [|t out]; [done|].
    destruct (Hfull 0 t eq_refl) as [[Hpos _] _].
    rewrite seatedMembers_cons in Hperm. apply app_eq_nil in Hperm as [Hm _].
    unfold Table.size in Hpos. rewrite Hm in Hpos. simpl in Hpos. lia.
Qed.

Lemma shuffle_table_count_witness :
  ∃ out,
    shuffleTables 6 (λ _, 0%Q) sixAtOneTable (Some 5) = Some out ∧
    totalTables (getTableDistributionStats 6 (Some 5))
    = Int (Z.of_nat (length out)).
Proof.
  destruct (shuffle_table_count (Some 5) sixAtOneTable (λ _, 0%Q))
    as (out & Hrun & Hcount & _).
  - simpl. lia.
  - intros k. split; [unfold Qle; simpl; lia|unfold Qlt; simpl; lia].
  - exists out. split; [apply Hrun; simpl; lia|exact Hcount].
Defined.

(** ** Members across a move *)

Lemma seatedMembers_delete ts i t :
  ts !! i = Some t →
  seatedMembers ts ≡ₚ Table.members t ++ seatedMembers (delete i ts).
Proof.
  intros Ht. rewrite <- (take_drop_middle ts i t Ht) at 1.
  rewrite delete_take_drop, !seatedMembers_app, seatedMembers_cons.
  rewrite (app_assoc (seatedMembers _) (Table.members t)).
  rewrite (Permutation_app_comm (seatedMembers _) (Table.members t)).
  by rewrite <- app_assoc.
Qed.

Lemma delete_alter_same {A} (g : A → A) (l : list A) i :
  delete i (alter g i l) = delete i l.
Proof.
  rewrite !delete_take_drop.
  by rewrite take_alter_ge, drop_alter_lt by lia.
Qed.

Lemma move_conserves_members ts u A B cap :
  seatedMembers (tables (moveUserBetweenTables ts u A B cap))
  ≡ₚ seatedMembers ts.
Proof.
  move_cases ts u A B cap.
  - by rewrite (move_not_found _ _ _ _ _ H).
  - by rewrite (move_full _ _ _ _ _ _ _ _ _ Hf Ht H).
  - by rewrite (move_user_missing _ _ _ _ _ _ _ _ _ Hf Ht Hroom H).
  - pose proof Hf as [Hfl _]. pose proof H as [Hkl _].
    apply findTable_Some in Hf, Ht. apply findMember_Some in H.
    unfold moveUserBetweenTables. rewrite Hf, Ht, H.
    rewrite decide_False by lia. cbn [tables].
    set (ts1 := alter (Table.withMembers (delete k (Table.members fromT)))
                      f ts).
    assert (seatedMembers ts ≡ₚ user :: seatedMembers ts1) as Hstep.
    { rewrite (seatedMembers_delete ts f fromT Hfl).
      rewrite (seatedMembers_delete ts1 f
                 (Table.withMembers (delete k (Table.members fromT)) fromT)).
      2:{ unfold ts1. by rewrite list_lookup_alter_eq, Hfl. }
      unfold ts1. rewrite delete_alter_same.
      cbn [Table.withMembers Table.members].
      rewrite app_comm_cons. apply Permutation_app_tail.
      by apply delete_Permutation. }
    destruct (ts1 !! t) as [t1|] eqn:Ht1.
    + rewrite (alter_as_insert _ _ _ _ Ht1), seatedMembers_insert by done.
      rewrite Hstep. symmetry. apply Permutation_cons_append.
    + exfalso. apply lookup_ge_None in Ht1. unfold ts1 in Ht1.
      rewrite length_alter in Ht1. apply findTable_Some in Ht as [Htl _].
      apply lookup_lt_Some in Htl. lia.
Qed.

Lemma move_keeps_ids ts u A B cap :
  Table.id <$> tables (moveUserBetweenTables ts u A B cap) = Table.id <$> ts.
Proof.
  destruct (move_outcome ts u A B cap) as [(_ & -> & _)|(_ & Hmoved & _)];
    [done|].
  destruct Hmoved as (f & fromT & t & toT & k & user & _ & _ & _ & Hlookup).
  apply list_eq. intros i. rewrite !list_lookup_fmap, Hlookup.
  by destruct (ts !! i).
Qed.

(** X4 (a move conserves the membership).  Whatever the outcome of
    [moveUserBetweenTables], the members of the returned tables are a
    permutation of the members of the input and the table ids are the
    same in the same order; if no member id was seated twice before the
    call, none is after it. *)
Theorem move_conserves_membership (ts : list Table.t) (u : Id)
    (A B : string) (cap : option nat) :
  let out := tables (moveUserBetweenTables ts u A B cap) in
  seatedMembers out ≡ₚ seatedMembers ts ∧
  Table.id <$> out = Table.id <$> ts ∧
  (NoDup (seatedIds ts) → NoDup (seatedIds out)).
Proof.
  intros out. split_and!.
  - apply move_conserves_members.
  - apply move_keeps_ids.
  - unfold out. rewrite !seatedIds_members.
    by rewrite move_conserves_members.
Qed.

Lemma move_conserves_membership_witness :
  NoDup (seatedIds (tables (moveUserBetweenTables twoTables
                              (Some "u1"%string) "t1" "t2" None))).
Proof.
  apply (move_conserves_membership twoTables (Some "u1"%string) "t1" "t2" None).
  apply (bool_decide_unpack _). by vm_compute.
Defined.

(** X5 (the message of a move).  [moveUserBetweenTables] reports the
    first validation that fails, in the order lookup of the two tables,
    room at the destination, presence of the user at the source: a
    missing table is reported whatever else is wrong, a full destination
    is reported even when the user is not at the source; and the call
    succeeds exactly when its message says that the user was moved. *)
Theorem move_reports_first_failure (ts : list Table.t) (u : Id)
    (A B : string) (cap : option nat) :
  let r := moveUserBetweenTables ts u A B cap in
  (tableNotFound ts A B → message r = "Table not found"%string) ∧
  (∀ f fromT t toT,
     firstTable ts A f fromT → firstTable ts B t toT →
     (capOf cap ≤ Table.size toT →
        message r = "Destination table is full"%string) ∧
     (Table.size toT < capOf cap →
      (∀ m, m ∈ Table.members fromT → Member.id m ≠ u) →
        message r = "User not found in source table"%string)) ∧
  (success r = true ↔ message r = "User moved successfully"%string).
Proof.
  intros r. unfold r. split_and!.
  - intros H. by rewrite (move_not_found _ _ _ _ _ H).
  - intros f fromT t toT Hf Ht. split.
    + intros H. by rewrite (move_full _ _ _ _ _ _ _ _ _ Hf Ht H).
    + intros Hroom H.
      by rewrite (move_user_missing _ _ _ _ _ _ _ _ _ Hf Ht Hroom H).
  - move_cases ts u A B cap.
    + by rewrite (move_not_found _ _ _ _ _ H).
    + by rewrite (move_full _ _ _ _ _ _ _ _ _ Hf Ht H).
    + by rewrite (move_user_missing _ _ _ _ _ _ _ _ _ Hf Ht Hroom H).
    + destruct (move_success _ _ _ _ _ _ _ _ _ _ _ Hf Ht Hroom H)
        as (ts' & -> & _). done.
Qed.

Lemma move_reports_first_failure_witness :
  message (moveUserBetweenTables twoTables (Some "nobody"%string)
             "t1" "t1" (Some 1))
  = "Destination table is full"%string.
Proof.
  apply (proj1 (proj2 (move_reports_first_failure twoTables
                         (Some "nobody"%string) "t1" "t1" (Some 1)))
           0 (Table.mk "t1" "Table 1" [snapshot (userNamed "u1")])
           0 (Table.mk "t1" "Table 1" [snapshot (userNamed "u1")])).
  - split_and!; [reflexivity | reflexivity | intros j t' _ Hj; lia].
  - split_and!; [reflexivity | reflexivity | intros j t' _ Hj; lia].
  - vm_compute. lia.
Defined.

(** X6 (the distribution of the statistics is feasible).  For at least
    one user and a capacity of at least one, the fields of
    [getTableDistributionStats] are integers with at most one table per
    user, a normal table size between one and the capacity, room for the
    extra person wherever one is counted, at least one table of normal
    size, and the two kinds of table adding up to [totalTables]. *)
Theorem stats_distribution_within_capacity (totalUsers : nat)
    (cap : option nat) :
  1 ≤ totalUsers → 1 ≤ capOf cap →
  ∃ m p e c : Z,
    getTableDistributionStats totalUsers cap
      = mkStats (Int m) (Int p) (Int e) (Int c) ∧
    (1 ≤ m ≤ Z.of_nat totalUsers)%Z ∧
    (1 ≤ p ≤ Z.of_nat (capOf cap))%Z ∧
    (0 < e → p + 1 ≤ Z.of_nat (capOf cap))%Z ∧
    (0 ≤ e)%Z ∧ (1 ≤ c)%Z ∧ (c + e = m)%Z.
Proof.
  intros Hn Hcap.
  destruct (stats_consistency totalUsers cap Hn Hcap)
    as (m & p & e & c & Heq & Hm & Hsum & He & Hc).
  exists m, p, e, c. subst c.
  assert (m * p + e = Z.of_nat totalUsers)%Z as Hmp by lia.
  assert (1 ≤ m)%Z by lia.
  assert (m ≤ Z.of_nat totalUsers)%Z by nia.
  assert (1 ≤ p)%Z by nia.
  assert (p ≤ Z.of_nat (capOf cap))%Z by nia.
  split_and!; try done; try lia. nia.
Qed.

Lemma stats_distribution_within_capacity_witness :
  ∃ m p e c : Z,
    getTableDistributionStats 7 (Some 5)
      = mkStats (Int m) (Int p) (Int e) (Int c) ∧
    (1 ≤ p ≤ 5)%Z.
Proof.
  destruct (stats_distribution_within_capacity 7 (Some 5))
    as (m & p & e & c & Heq & _ & Hp & _); [lia | vm_compute; lia |].
  by exists m, p, e, c.
Defined.

(** ** Location groups *)











(** ** The tables collection *)

Section StoreFacts.

Implicit Types (store : Store.Tables) (ts old new : list Table.t).

Lemma commit_app b1 b2 store :
  Store.commit (b1 ++ b2) store = Store.commit b2 (Store.commit b1 store).
Proof. unfold Store.commit. by rewrite foldl_app. Qed.

Lemma commit_deleteAll old : ∀ store i,
  Store.commit (Store.deleteAll old) store !! i
  = if decide (i ∈ Table.id <$> old) then None else store !! i.
Proof.
  induction old as [|t old IH]; intros store i.
  - change (Store.commit (Store.deleteAll []) store) with store.
    case_decide as Hin; [|done]. by apply elem_of_nil in Hin.
  - change (Store.commit (Store.deleteAll (t :: old)) store)
      with (Store.commit (Store.deleteAll old) (delete (Table.id t) store)).
    rewrite IH, fmap_cons.
    destruct (decide (i ∈ Table.id <$> old)) as [Hin|Hout].
    + rewrite decide_True; [done|]. by right.
    + destruct (decide (i = Table.id t)) as [->|Hne].
      * rewrite lookup_delete_eq, decide_True; [done|]. by left.
      * rewrite lookup_delete_ne by done. rewrite decide_False; [done|].
        rewrite elem_of_cons. tauto.
Qed.

Lemma commit_setAll_other new : ∀ store i,
  i ∉ Table.id <$> new →
  Store.commit (Store.setAll new) store !! i = store !! i.
Proof.
  induction new as [|t new IH]; intros store i Hout; [done|].
  change (Store.commit (Store.setAll (t :: new)) store)
    with (Store.commit (Store.setAll new) (<[Table.id t := t]> store)).
  rewrite fmap_cons, not_elem_of_cons in Hout. destruct Hout as [Hne Hout].
  rewrite IH by done. by rewrite lookup_insert_ne.
Qed.

Lemma commit_setAll_stored new : ∀ store t,
  NoDup (Table.id <$> new) → t ∈ new →
  Store.commit (Store.setAll new) store !! Table.id t = Some t.
Proof.
  induction new as [|t0 new IH]; intros store t Hnd Hin.
  - by apply elem_of_nil in Hin.
  - change (Store.commit (Store.setAll (t0 :: new)) store)
      with (Store.commit (Store.setAll new) (<[Table.id t0 := t0]> store)).
    rewrite fmap_cons in Hnd. apply NoDup_cons in Hnd as [Hfresh Hnd].
    apply elem_of_cons in Hin as [->|Hin].
    + rewrite commit_setAll_other by done. by rewrite lookup_insert_eq.
    + by apply IH.
Qed.

(** After a batch that writes every table of [new] under its id, a
    document with one of these ids is one of these tables. *)
Lemma commit_setAll_Some new store i t :
  NoDup (Table.id <$> new) → i ∈ Table.id <$> new →
  Store.commit (Store.setAll new) store !! i = Some t →
  t ∈ new ∧ Table.id t = i.
Proof.
  intros Hnd Hi Hlook.
  apply list_elem_of_fmap in Hi as (t' & -> & Ht').
  rewrite commit_setAll_stored in Hlook by done. by injection Hlook as <-.
Qed.

(** Deleting the tables of a current snapshot and writing tables with
    distinct ids leaves the collection holding exactly the latter. *)
Lemma replace_holds old new store :
  (∀ i, is_Some (store !! i) → i ∈ Table.id <$> old) →
  NoDup (Table.id <$> new) →
  holds (Store.commit (Store.deleteAll old ++ Store.setAll new) store) new.
Proof.
  intros Hcur Hnd. split; [done|]. intros i t. rewrite commit_app.
  split.
  - intros Hlook.
    destruct (decide (i ∈ Table.id <$> new)) as [Hin|Hout].
    + by eapply commit_setAll_Some.
    + rewrite commit_setAll_other, commit_deleteAll in Hlook by done.
      case_decide; [done|]. destruct H. apply Hcur. by eexists.
  - intros [Hin <-]. by apply commit_setAll_stored.
Qed.

(** Writing over a collection that holds [old] tables with the same ids. *)
Lemma overwrite_holds old new store :
  holds store old → NoDup (Table.id <$> new) →
  (∀ i, i ∈ Table.id <$> old → i ∈ Table.id <$> new) →
  holds (Store.commit (Store.setAll new) store) new.
Proof.
  intros [_ Hold] Hnd Hsub. split; [done|]. intros i t. split.
  - intros Hlook.
    destruct (decide (i ∈ Table.id <$> new)) as [Hin|Hout].
    + by eapply commit_setAll_Some.
    + rewrite commit_setAll_other in Hlook by done.
      apply Hold in Hlook as [Hin <-]. destruct Hout. apply Hsub.
      by apply list_elem_of_fmap_2.
  - intros [Hin <-]. by apply commit_setAll_stored.
Qed.

Lemma holds_current store ts i :
  holds store ts → is_Some (store !! i) → i ∈ Table.id <$> ts.
Proof.
  intros [_ H] [t Ht]. apply H in Ht as [Hin <-].
  by apply list_elem_of_fmap_2.
Qed.

End StoreFacts.

Section Names.

Lemma ids_insert_push (ts : list Table.t) i t m :
  ts !! i = Some t →
  Table.id <$> <[i := Table.push m t]> ts = Table.id <$> ts.
Proof.
  intros Ht. rewrite list_fmap_insert. apply list_insert_id.
  by rewrite list_lookup_fmap, Ht.
Qed.

Lemma placeUser_positionNamed cap ts u :
  positionNamed ts → positionNamed (placeUser cap ts u).
Proof.
  intros [Hnd Hnamed].
  destruct (placeUser_cases cap ts u) as [(i & t & Ht & _ & ->)| ->].
  - split.
    + by rewrite (ids_insert_push _ _ _ _ Ht).
    + intros t' Ht'. rewrite length_insert.
      apply list_elem_of_lookup in Ht' as [k Hk].
      apply list_lookup_insert_Some in Hk as [(-> & <- & _)|[_ Hk]].
      * apply (Hnamed t). by eapply list_elem_of_lookup_2.
      * apply Hnamed. by eapply list_elem_of_lookup_2.
  - split.
    + rewrite fmap_app. apply NoDup_app. split_and!; [done| |].
      * intros x Hx Hnew. apply list_elem_of_fmap in Hx as (t & -> & Ht).
        destruct (Hnamed t Ht) as (k & Hk & Hid).
        simpl in Hnew. apply list_elem_of_singleton in Hnew.
        rewrite Hid in Hnew.
        apply String.app_inj, pretty_nat_inj in Hnew. lia.
      * apply NoDup_singleton.
    + intros t Ht. rewrite length_app. simpl.
      apply elem_of_app in Ht as [Ht|Ht].
      * destruct (Hnamed t Ht) as (k & Hk & Hid). exists k. split; [lia|done].
      * apply list_elem_of_singleton in Ht as ->. exists (length ts).
        split; [lia|done].
Qed.

Lemma assignRoundRobin_positionNamed cap us : ∀ ts,
  positionNamed ts → positionNamed (assignRoundRobin us ts cap).
Proof.
  unfold assignRoundRobin.
  induction us as [|u us IH]; intros ts Hnamed; [done|].
  cbn [foldl]. by apply IH, placeUser_positionNamed.
Qed.

End Names.

(** ** The dashboard *)

Section Handlers.

Lemma holds_seated store ts x :
  holds store ts → x ∈ seatedIds ts →
  ∃ t, store !! Table.id t = Some t ∧ x ∈ Table.ids t.
Proof.
  intros [_ Hstore] Hx. apply elem_of_seatedIds in Hx as (i & t & Hi & Hx).
  exists t. split; [|done]. apply Hstore. split; [|done].
  by eapply list_elem_of_lookup_2.
Qed.

Lemma allUsers_has_current account profile users :
  ∃ u, u ∈ Dashboard.allUsers account profile users ∧
       User.id u = Some (Auth.uid account).
Proof.
  unfold Dashboard.allUsers. cbv zeta.
  destruct (list_find _ (validUsers users)) as [[i u]|] eqn:Hfind.
  - apply list_find_Some in Hfind as (Hi & Hid & _).
    exists u. split; [by eapply list_elem_of_lookup_2|done].
  - exists (Dashboard.currentUserData account profile). split; [|done].
    apply elem_of_app. right. by apply list_elem_of_singleton.
Qed.

Lemma allUsers_valid account profile users u :
  u ∈ users → truthy (User.id u) = true →
  u ∈ Dashboard.allUsers account profile users.
Proof.
  intros Hu Hid. unfold Dashboard.allUsers. cbv zeta.
  assert (u ∈ validUsers users) by (by apply list_elem_of_filter).
  destruct (list_find _ (validUsers users)); [done|].
  apply elem_of_app. by left.
Qed.

Lemma assign_round_robin_mode users settings ts :
  considerLocation settings ≠ Some true →
  assignUsersToTables users settings ts
  = assignRoundRobin (unassignedUsers users ts) ts
                     (capOf (maxPeoplePerTable settings)).
Proof.
  intros Hloc. unfold assignUsersToTables.
  by destruct (considerLocation settings) as [[]|].
Qed.

Lemma positionNamed_nil : positionNamed [].
Proof.
  split; [apply NoDup_nil_2|]. intros t Ht. by apply elem_of_nil in Ht.
Qed.

End Handlers.

(** X9 (asking for a table).  In [handleAssignTable], for a signed-in
    user with a profile, the current user is always among the users
    passed to the engine, so the result seats them and the alert about
    failed generation is never shown; a refused batch leaves the
    collection as it was and shows the error.  Without location
    grouping, when the tables of the snapshot have distinct ids named
    after positions of the list and the snapshot is current, an accepted
    batch leaves the collection holding exactly the tables of the
    result, one of which seats the current user, and every table of the
    snapshot keeps its position, id, name and earlier members. *)
Theorem assign_table_seats_current_user (refused : option string)
    (account : Auth.Account) (profile : User.t) (users : list User.t)
    (settings : Settings) (tables : list Table.t) (store : Store.Tables) :
  let newTables :=
    assignUsersToTables (Dashboard.allUsers account profile users)
                        settings tables in
  let run r :=
    Dashboard.handleAssignTable r (Some account) (Some profile) users
      settings tables store in
  Some (Auth.uid account) ∈ seatedIds newTables ∧
  snd (run refused)
    ≠ ["Failed to generate table assignments. Please try again."%string] ∧
  (∀ error, run (Some error)
            = (store, [("Failed to assign table: " +:+ error)%string])) ∧
  (considerLocation settings ≠ Some true → positionNamed tables →
   (∀ i, is_Some (store !! i) → i ∈ Table.id <$> tables) →
   ∃ store',
     run None = (store', []) ∧ holds store' newTables ∧
     (∃ t, store' !! Table.id t = Some t ∧
           Some (Auth.uid account) ∈ Table.ids t) ∧
     retains (capOf (maxPeoplePerTable settings)) tables newTables).
Proof.
  intros newTables run.
  assert (Some (Auth.uid account) ∈ seatedIds newTables) as Hseated.
  { destruct (allUsers_has_current account profile users) as (u & Hu & <-).
    by apply assign_seats_all. }
  assert (length newTables ≠ 0) as Hlen.
  { intros Hnil. apply nil_length_inv in Hnil. rewrite Hnil in Hseated.
    by apply elem_of_nil in Hseated. }
  assert (∀ r, run r
             = Store.submit r
                 (Store.deleteAll tables ++ Store.setAll newTables) store []
                 (λ error, [("Failed to assign table: " +:+ error)%string]))
    as Hrun.
  { intros r. unfold run, Dashboard.handleAssignTable. cbv zeta.
    fold newTables. by rewrite decide_False. }
  split_and!; [done| | |].
  - rewrite Hrun. by destruct refused.
  - intros error. by rewrite Hrun.
  - intros Hloc Hnamed Hcur. rewrite Hrun. eexists. split; [done|].
    assert (holds (Store.commit
                     (Store.deleteAll tables ++ Store.setAll newTables) store)
                  newTables) as Hholds.
    { apply replace_holds; [done|].
      unfold newTables. rewrite assign_round_robin_mode by done.
      by apply assignRoundRobin_positionNamed. }
    split_and!; [done| |].
    + by eapply holds_seated.
    + apply retains_assign.
Qed.

Lemma assign_table_seats_current_user_witness :
  ∃ store',
    Dashboard.handleAssignTable None (Some visitor) (Some (userNamed "d")) abc
      (mkSettings (Some 2) None) seatedA seatedAStore = (store', []) ∧
    ∃ t, store' !! Table.id t = Some t ∧ Some "d"%string ∈ Table.ids t.
Proof.
  destruct (proj2 (proj2 (proj2
             (assign_table_seats_current_user None visitor (userNamed "d") abc
                (mkSettings (Some 2) None) seatedA seatedAStore))))
    as (store' & Hrun & _ & Hseat & _).
  - done.
  - split; [apply (bool_decide_unpack _); by vm_compute|].
    intros t Ht. apply list_elem_of_singleton in Ht as ->.
    exists 0. split; [simpl; lia|reflexivity].
  - intros i [t Ht]. unfold seatedAStore in Ht.
    apply lookup_singleton_Some in Ht as [<- _]. left.
  - exists store'. by split.
Defined.

Section Change.

Lemma myTableOf_Some account ts mine :
  Dashboard.myTableOf (Some account) ts = Some mine →
  mine ∈ ts ∧ ∃ m, m ∈ Table.members mine ∧
                   Member.id m = Some (Auth.uid account).
Proof.
  unfold Dashboard.myTableOf. case_decide; [|done].
  destruct (list_find _ ts) as [[i t]|] eqn:Hfind; [|done].
  intros [= <-]. apply list_find_Some in Hfind as (Hi & Hex & _).
  split; [by eapply list_elem_of_lookup_2|].
  apply Exists_exists in Hex as (m & Hm & Hid). eauto.
Qed.

Lemma firstTable_of_NoDup ts t :
  NoDup (Table.id <$> ts) → t ∈ ts →
  ∃ i, firstTable ts (Table.id t) i t.
Proof.
  intros Hnd Ht. apply list_elem_of_lookup in Ht as [i Hi]. exists i.
  split_and!; [done..|]. intros j t' Hj Hlt Hid.
  assert (i = j); [|lia].
  eapply NoDup_lookup; [exact Hnd| |]; rewrite list_lookup_fmap.
  - by rewrite Hi.
  - rewrite Hj. simpl. by rewrite Hid.
Qed.

Lemma firstMember_exists ms u m :
  m ∈ ms → Member.id m = u → ∃ k user, firstMember ms u k user.
Proof.
  intros Hm Hid.
  destruct (findMember u ms) as [[k user]|] eqn:Hfind.
  - exists k, user. by apply findMember_Some.
  - exfalso. by eapply findMember_None.
Qed.

End Change.

(** X10 (changing table).  In [handleChangeTable], a move the engine
    refuses shows the message of the engine and writes nothing, and a
    refused batch writes nothing.  When the collection holds the
    snapshot, [myTable] is the table the membership effect found, and
    the target is a table offered in the selection dialog whose join
    button is enabled under a defined [maxPeoplePerTable], the move
    succeeds and an accepted batch stores every table of the result: the
    source, kept even when left empty, has one member fewer and the
    destination one more, within the capacity, the current user among
    them. *)
Theorem change_table_moves_in_store (refused : option string)
    (account : Auth.Account) (mine target : Table.t)
    (settings : Settings) (ts : list Table.t) (store : Store.Tables) :
  let me := Some (Auth.uid account) in
  let run r :=
    Dashboard.handleChangeTable r (Some account) (Some mine)
      (Table.id target) settings ts store in
  let result :=
    moveUserBetweenTables ts me (Table.id mine) (Table.id target)
                          (maxPeoplePerTable settings) in
  (success result = false → run refused = (store, [message result])) ∧
  (∀ error, fst (run (Some error)) = store) ∧
  (holds store ts →
   Dashboard.myTableOf (Some account) ts = Some mine →
   target ∈ Dashboard.tableOptions (Some mine) ts →
   is_Some (maxPeoplePerTable settings) →
   Dashboard.joinDisabled false settings target = false →
   ∃ store' source destination,
     run None = (store', []) ∧
     holds store' (tables result) ∧
     movedTo ts me (Table.id mine) (Table.id target)
             (tables result) ∧
     store' !! Table.id mine = Some source ∧
     store' !! Table.id target = Some destination ∧
     S (Table.size source) = Table.size mine ∧
     Table.size destination = S (Table.size target) ∧
     Table.size destination ≤ capOf (maxPeoplePerTable settings) ∧
     me ∈ Table.ids destination).
Proof.
  intros me run result.
  assert (∀ r, run r
    = if success result
      then Store.submit r (Store.setAll (tables result)) store []
             (λ _, ["Failed to change table. Please try again."%string])
      else (store, [message result])) as Hrun.
  { intros r. unfold run, Dashboard.handleChangeTable. fold me. fold result.
    by destruct result as [[] ? ?]. }
  split_and!.
  - intros Hfail. by rewrite Hrun, Hfail.
  - intros error. rewrite Hrun. by destruct (success result).
  - intros Hholds Hmine Htarget [c Hc] Hjoin.
    pose proof Hholds as [Hnd Hstore].
    apply myTableOf_Some in Hmine as (Hmine & m & Hm & Hid).
    apply list_elem_of_filter in Htarget as [Hne Htarget].
    assert (Table.id target ≠ Table.id mine) as Hids
      by (intros Heq; apply Hne; simpl; by rewrite Heq).
    destruct (firstTable_of_NoDup _ _ Hnd Hmine) as [f Hf].
    destruct (firstTable_of_NoDup _ _ Hnd Htarget) as [t Ht].
    destruct (firstMember_exists _ _ _ Hm Hid) as (k & user & Hk).
    assert (Table.size target < capOf (maxPeoplePerTable settings)) as Hroom.
    { unfold Dashboard.joinDisabled in Hjoin. rewrite Hc in Hjoin |- *.
      simpl in Hjoin |- *. apply bool_decide_eq_false in Hjoin. lia. }
    destruct (move_success _ _ _ _ _ _ _ _ _ _ _ Hf Ht Hroom Hk)
      as (out & Heq & Hlookup).
    assert (f ≠ t) as Hft.
    { intros ->. destruct Hf as [Hf _], Ht as [Ht _]. congruence. }
    assert (Table.id <$> out = Table.id <$> ts) as Hsame.
    { apply list_eq. intros i. rewrite !list_lookup_fmap, Hlookup.
      by destruct (ts !! i). }
    assert (holds (Store.commit (Store.setAll out) store) out) as Hout.
    { eapply overwrite_holds; [exact Hholds|by rewrite Hsame|].
      intros i. by rewrite Hsame. }
    rewrite Hrun. unfold result, me in *. rewrite Heq.
    cbn [success tables].
    pose proof (Hlookup f) as Hsrc. pose proof (Hlookup t) as Hdst.
    pose proof Hf as [Hfl _]. pose proof Ht as [Htl _].
    rewrite Hfl in Hsrc. rewrite Htl in Hdst.
    simpl in Hsrc, Hdst. unfold movedMembers in Hsrc, Hdst.
    rewrite (decide_True (P := f = f)) in Hsrc by done.
    rewrite (decide_False (P := f = t)) in Hsrc by done.
    rewrite (decide_False (P := t = f)) in Hdst by done.
    rewrite (decide_True (P := t = t)) in Hdst by done.
    destruct Hout as [Hnd' Hstore'].
    pose proof Hk as [Hkl _]. apply lookup_lt_Some in Hkl.
    eexists _, _, _. split; [done|]. split; [by split|]. split_and!.
    + by exists f, mine, t, target, k, user.
    + apply Hstore'.
      split; [eapply list_elem_of_lookup_2; exact Hsrc|done].
    + apply Hstore'.
      split; [eapply list_elem_of_lookup_2; exact Hdst|done].
    + unfold Table.size. cbn [Table.withMembers Table.members].
      rewrite length_delete by (by apply lookup_lt_is_Some_2). lia.
    + unfold Table.size. cbn [Table.withMembers Table.members].
      rewrite length_app. simpl. lia.
    + unfold Table.size in *. cbn [Table.withMembers Table.members].
      rewrite length_app. simpl. lia.
    + unfold Table.ids. cbn [Table.withMembers Table.members].
      rewrite fmap_app. apply elem_of_app. right.
      destruct Hk as (_ & Hu & _). rewrite <- Hu. left.
Qed.

(** ** The admin panel *)

Lemma holds_written ts :
  NoDup (Table.id <$> ts) → holds (Store.commit (Store.setAll ts) ∅) ts.
Proof.
  intros Hnd.
  apply (replace_holds [] ts ∅); [|done].
  intros i [t Ht]. by rewrite lookup_empty in Ht.
Qed.

Lemma change_table_moves_in_store_witness :
  ∃ store' destination,
    Dashboard.handleChangeTable None (Some guest)
      (Some (Table.mk "t1" "Table 1" [snapshot (userNamed "u1")]))
      "t2" (mkSettings (Some 2) None) twoTables twoTablesStore
    = (store', []) ∧
    store' !! "t2"%string = Some destination ∧
    Some "u1"%string ∈ Table.ids destination.
Proof.
  destruct (proj2 (proj2
             (change_table_moves_in_store None guest
                (Table.mk "t1" "Table 1" [snapshot (userNamed "u1")])
                (Table.mk "t2" "Table 2" [])
                (mkSettings (Some 2) None) twoTables twoTablesStore)))
    as (store' & source & destination & Hrun & _ & _ & _ & Hdst & _ & _ & _
        & Hin).
  - apply holds_written. apply (bool_decide_unpack _). by vm_compute.
  - reflexivity.
  - apply list_elem_of_filter. split; [done|]. right. left.
  - by eexists.
  - reflexivity.
  - by exists store', destination.
Defined.

(** X11 (shuffling from the admin panel).  For a capacity of at least
    one, when the shuffle is confirmed and the batch accepted,
    [handleShuffleTables] stores every shuffled table under its id,
    seating a permutation of the members of the snapshot within the
    capacity; when the snapshot is current the collection then holds
    exactly the shuffled tables.  A refused batch, or a declined
    confirmation, leaves the collection as it was. *)
Theorem shuffle_handler_replaces_collection (fuel : nat) (random : nat → Q)
    (settings : Settings) (ts : list Table.t) (store : Store.Tables) :
  let cap := capOf (maxPeoplePerTable settings) in
  1 ≤ cap → validRandom random → length (seatedMembers ts) ≤ fuel →
  ∃ out,
    shuffleTables fuel random ts (maxPeoplePerTable settings) = Some out ∧
    AdminPanel.handleShuffleTables true None fuel random settings ts store
    = Some (Store.commit (Store.deleteAll ts ++ Store.setAll out) store,
            ["Tables shuffled successfully!"%string]) ∧
    ((∀ i, is_Some (store !! i) → i ∈ Table.id <$> ts) →
     holds (Store.commit (Store.deleteAll ts ++ Store.setAll out) store)
           out) ∧
    (∀ t, t ∈ out →
       Store.commit (Store.deleteAll ts ++ Store.setAll out) store
         !! Table.id t = Some t) ∧
    seatedMembers out ≡ₚ seatedMembers ts ∧
    withinCapacity cap out ∧
    (∀ error,
       AdminPanel.handleShuffleTables true (Some error) fuel random settings
         ts store
       = Some (store, ["Failed to shuffle tables. Please try again."%string]))
    ∧
    (∀ refused,
       AdminPanel.handleShuffleTables false refused fuel random settings
         ts store = Some (store, [])).
Proof.
  intros cap Hcap _ Hfuel.
  destruct (shuffleTables_spec (maxPeoplePerTable settings) ts random Hcap)
    as (out & Hrun & _ & Hperm & Hfull & Hname).
  specialize (Hrun fuel Hfuel). exists out.
  pose proof (freshlyNamed_NoDup _ Hname) as Hnd.
  unfold AdminPanel.handleShuffleTables. rewrite Hrun.
  split_and!; try done.
  - intros Hcur. by apply replace_holds.
  - intros t Ht. rewrite commit_app. by apply commit_setAll_stored.
  - by apply withinCapacity_fullExceptLast.
Qed.

Lemma shuffle_handler_replaces_collection_witness :
  ∃ out,
    AdminPanel.handleShuffleTables true None 6 (λ _, 0%Q)
      (mkSettings None None) sixAtOneTable ∅
    = Some (Store.commit (Store.deleteAll sixAtOneTable ++ Store.setAll out) ∅,
            ["Tables shuffled successfully!"%string]) ∧
    withinCapacity 5 out.
Proof.
  destruct (shuffle_handler_replaces_collection 6 (λ _, 0%Q)
              (mkSettings None None) sixAtOneTable ∅)
    as (out & _ & Hrun & _ & _ & _ & Hcap & _).
  - simpl. lia.
  - intros k. split; [unfold Qle; simpl; lia|unfold Qlt; simpl; lia].
  - simpl. lia.
  - by exists out.
Defined.

(** X12 (reassigning everybody).  [handleReassignAll] seats exactly
    the snapshots of the user records that have an id, whoever was
    seated before.  Without location grouping an accepted batch stores
    every new table under its id, so every such user is seated in the
    collection, which holds exactly the new tables when the snapshot was
    current.  A refused batch, or a declined confirmation, leaves the
    collection as it was. *)
Theorem reassign_handler_seats_valid_users (users : list User.t)
    (settings : Settings) (ts : list Table.t) (store : Store.Tables) :
  let out := assignUsersToTables (validUsers users) settings [] in
  let store' := Store.commit (Store.deleteAll ts ++ Store.setAll out) store in
  AdminPanel.handleReassignAll true None users settings ts store
  = (store', ["All users reassigned successfully!"%string]) ∧
  seatedMembers out ≡ₚ snapshot <$> validUsers users ∧
  (considerLocation settings ≠ Some true →
     (∀ t, t ∈ out → store' !! Table.id t = Some t) ∧
     (∀ u, u ∈ users → truthy (User.id u) = true →
        ∃ t, store' !! Table.id t = Some t ∧ User.id u ∈ Table.ids t) ∧
     ((∀ i, is_Some (store !! i) → i ∈ Table.id <$> ts) →
        holds store' out)) ∧
  (∀ error,
     AdminPanel.handleReassignAll true (Some error) users settings ts store
     = (store, ["Failed to reassign users. Please try again."%string])) ∧
  (∀ refused,
     AdminPanel.handleReassignAll false refused users settings ts store
     = (store, [])).
Proof.
  intros out store'. split_and!; try done.
  - unfold out. rewrite seatedMembers_assign, unassignedUsers_empty.
    by change (seatedMembers []) with (@nil Member.t).
  - intros Hloc.
    assert (NoDup (Table.id <$> out)) as Hnd.
    { unfold out. rewrite assign_round_robin_mode by done.
      apply assignRoundRobin_positionNamed, positionNamed_nil. }
    assert (∀ t, t ∈ out → store' !! Table.id t = Some t) as Hstored.
    { intros t Ht. unfold store'. rewrite commit_app.
      by apply commit_setAll_stored. }
    split_and!; [done| |].
    + intros u Hu Hid.
      assert (User.id u ∈ seatedIds out) as Hseat.
      { apply assign_seats_all. by apply list_elem_of_filter. }
      apply elem_of_seatedIds in Hseat as (i & t & Hi & Hx).
      exists t. split; [|done]. apply Hstored.
      by eapply list_elem_of_lookup_2.
    + intros Hcur. by apply replace_holds.
Qed.

Lemma reassign_handler_seats_valid_users_witness :
  ∃ t,
    fst (AdminPanel.handleReassignAll true None abc (mkSettings (Some 2) None)
           seatedA seatedAStore) !! Table.id t = Some t ∧
    Some "c"%string ∈ Table.ids t.
Proof.
  destruct (reassign_handler_seats_valid_users abc (mkSettings (Some 2) None)
              seatedA seatedAStore) as (Hrun & _ & Hrr & _).
  destruct Hrr as (_ & Hseat & _); [done|].
  destruct (Hseat (userNamed "c")) as (t & Ht & Hin).
  - right. right. left.
  - reflexivity.
  - exists t. rewrite Hrun. by split.
Defined.

(** X13 (clearing the tables).  A confirmed and accepted
    [handleClearAllTables] removes every table of the snapshot, touches
    no other document, and so empties the collection when the snapshot
    was current; declined or refused, it leaves the collection as it
    was. *)
Theorem clear_handler_empties_snapshot (refused : option string)
    (confirmed : bool) (ts : list Table.t) (store : Store.Tables) :
  let run := AdminPanel.handleClearAllTables confirmed refused ts store in
  (confirmed = true → refused = None →
     snd run = ["All tables cleared successfully!"%string] ∧
     (∀ t, t ∈ ts → fst run !! Table.id t = None) ∧
     (∀ i, i ∉ Table.id <$> ts → fst run !! i = store !! i) ∧
     ((∀ i, is_Some (store !! i) → i ∈ Table.id <$> ts) → fst run = ∅)) ∧
  (confirmed = false ∨ is_Some refused → fst run = store).
Proof.
  intros run. split.
  - intros -> ->. unfold run. simpl. split_and!; [done| | |].
    + intros t Ht. rewrite commit_deleteAll, decide_True; [done|].
      by apply list_elem_of_fmap_2.
    + intros i Hi. by rewrite commit_deleteAll, decide_False.
    + intros Hcur. apply map_eq. intros i.
      rewrite commit_deleteAll, lookup_empty. case_decide as Hin; [done|].
      apply eq_None_not_Some. intros Hsome. by apply Hin, Hcur.
  - intros [->|[error ->]]; [done|]. unfold run. by destruct confirmed.
Qed.

Lemma clear_handler_empties_snapshot_witness :
  fst (AdminPanel.handleClearAllTables true None seatedA seatedAStore) = ∅.
Proof.
  apply (proj1 (clear_handler_empties_snapshot None true seatedA
                  seatedAStore)); [reflexivity..|].
  intros i [t Ht]. unfold seatedAStore in Ht.
  apply lookup_singleton_Some in Ht as [<- _]. left.
Defined.

(** ** Leaving a table *)

Section Leave.

Import Session.

Lemma withoutUser_unseated userId table tableId tableName :
  ¬ seats userId (mkTableDoc tableId tableName
                               (Some (withoutUser userId table))).
Proof.
  unfold seats. simpl. rewrite Exists_exists. intros (m & Hm & Hid).
  unfold withoutUser in Hm. by apply list_elem_of_filter in Hm as [Hne _].
Qed.

Lemma docsHold_lookup store docs i d :
  docsHold store docs → docs !! i = Some d → store !! id d = Some d.
Proof.
  intros [_ H] Hi. apply H. split; [|done]. by eapply list_elem_of_lookup_2.
Qed.

Lemma docsHold_same_id store docs i j di dj :
  docsHold store docs → docs !! i = Some di → docs !! j = Some dj →
  id di = id dj → i = j.
Proof.
  intros [Hnd _] Hi Hj Hid.
  eapply NoDup_lookup; [exact Hnd| |]; rewrite list_lookup_fmap.
  - by rewrite Hi.
  - rewrite Hj. simpl. by rewrite Hid.
Qed.

End Leave.

(** X14 (leaving, seen from the collection).  When the store takes the
    call of [removeUserFromTable] and the collection holds the snapshot,
    every table that does not seat the user is left as it was; the first
    table that seats them is deleted if nobody else sits there and
    otherwise keeps its id and name with the user removed; and if the
    user sat at one table only, no table of the collection seats them
    afterwards. *)
Theorem leaving_clears_the_seat (userId : Id)
    (docs : list Session.TableDoc) (store : gmap string Session.TableDoc) :
  let calls := fst (Session.removeUserFromTable online docs userId []) in
  let store' := afterCalls calls store in
  docsHold store docs →
  (∀ i d, docs !! i = Some d → ¬ Session.seats userId d →
     store' !! Session.id d = Some d) ∧
  (∀ i d, firstSeat docs userId i d →
     store' !! Session.id d
     = if decide (withoutUser userId d = []) then None
       else Some (Session.mkTableDoc (Session.id d) (Session.name d)
                    (Some (withoutUser userId d)))) ∧
  ((∀ i j di dj, docs !! i = Some di → docs !! j = Some dj →
      Session.seats userId di → Session.seats userId dj → i = j) →
   ∀ i d, store' !! i = Some d → ¬ Session.seats userId d).
Proof.
  intros calls store' Hholds.
  destruct (removeUserFromTable_runs online docs userId [])
    as (calls' & Hrun & Hcalls).
  assert (calls = calls') as Hc by (unfold calls; by rewrite Hrun).
  destruct (list_find (Session.seats userId) docs) as [[k table]|] eqn:Hfind.
  - apply firstSeat_find in Hfind as Hfirst.
    pose proof Hfirst as (Hk & Hseat & _).
    assert (∀ i, store' !! i
               = if decide (i = Session.id table)
                 then (if decide (withoutUser userId table = []) then None
                       else Some (Session.mkTableDoc (Session.id table)
                                    (Session.name table)
                                    (Some (withoutUser userId table))))
                 else store !! i) as Hlook.
    { intros i. unfold store'. rewrite Hc, Hcalls. unfold afterCalls.
      cbn [foldl].
      destruct (decide (withoutUser userId table = [])); cbn [Session.commit];
        destruct (decide (i = Session.id table)) as [->|Hne].
      - by rewrite lookup_delete_eq.
      - by rewrite lookup_delete_ne.
      - by rewrite lookup_insert_eq.
      - by rewrite lookup_insert_ne. }
    split_and!.
    + intros i d Hi Hfree. rewrite Hlook.
      destruct (decide (Session.id d = Session.id table)) as [Heq|Hne].
      * assert (i = k) as -> by (by eapply docsHold_same_id).
        assert (d = table) as -> by congruence. done.
      * by eapply docsHold_lookup.
    + intros i d Hd.
      assert (i = k ∧ d = table) as [-> ->].
      { apply firstSeat_find in Hd. rewrite Hd in Hfind.
        by injection Hfind as -> ->. }
      by rewrite Hlook, decide_True.
    + intros Huniq i d Hd. rewrite Hlook in Hd.
      destruct (decide (i = Session.id table)) as [->|Hne].
      * destruct (decide (withoutUser userId table = [])); [done|].
        injection Hd as <-. apply withoutUser_unseated.
      * destruct Hholds as [_ Hstore]. apply Hstore in Hd as [Hin <-].
        apply list_elem_of_lookup in Hin as [j Hj]. intros Hseated.
        assert (j = k) as -> by (by eapply Huniq).
        assert (d = table) as -> by congruence. done.
  - assert (store' = store) as ->
      by (unfold store'; by rewrite Hc, Hcalls).
    rewrite nobody_seated_find in Hfind.
    split_and!.
    + intros i d Hi _. by eapply docsHold_lookup.
    + intros i d (Hi & Hseat & _). destruct (Hfind d); [|done].
      by eapply list_elem_of_lookup_2.
    + intros _ i d Hd. destruct Hholds as [_ Hstore].
      apply Hstore in Hd as [Hin _]. by apply Hfind.
Qed.

Lemma aloneStore_holds : docsHold aloneStore aloneAtTable1.
Proof.
  split; [apply (bool_decide_unpack _); by vm_compute|].
  intros i d. unfold aloneStore, aloneAtTable1.
  rewrite lookup_singleton_Some, list_elem_of_singleton. split.
  - by intros [<- <-].
  - by intros [-> <-].
Qed.

Lemma leaving_clears_the_seat_witness :
  afterCalls
    (fst (Session.removeUserFromTable online aloneAtTable1
            (Some "a"%string) []))
    aloneStore !! "table-1"%string = None.
Proof.
  destruct (leaving_clears_the_seat (Some "a"%string) aloneAtTable1
              aloneStore aloneStore_holds) as (_ & Hfirst & _).
  apply (Hfirst 0 (Session.mkTableDoc "table-1" "Table 1"
                     (Some [snapshot (userNamed "a")]))).
  split_and!; [reflexivity | by left | intros j ? _ Hj; lia].
Defined.

(** ** Profiles and roles *)

Ltac js_cases :=
  intros; unfold blank, js_or in *; destruct_or?; simplify_eq;
  repeat (case_match || case_decide); simplify_eq; done.

Section Profiles.

Implicit Types (a b c d : option string).

Lemma js_or_blank a b : blank a → js_or a b = b.
Proof. js_cases. Qed.

Lemma js_or_absorb a b : js_or a (js_or a b) = js_or a b.
Proof. js_cases. Qed.

(** [a || (a || b || e) || e] is [a || b || e]. *)
Lemma js_or_resubmit2 a b e : js_or a (js_or (js_or a (js_or b e)) e)
                              = js_or a (js_or b e).
Proof. js_cases. Qed.

Lemma js_or_resubmit3 a b c e :
  js_or a (js_or (js_or a (js_or b (js_or c e))) (js_or c e))
  = js_or a (js_or b (js_or c e)).
Proof. js_cases. Qed.

Lemma js_or_resubmit_name a a' b c e :
  js_or a (js_or a' (js_or (js_or a (js_or a' (js_or b (js_or c e))))
                           (js_or c e)))
  = js_or a (js_or a' (js_or b (js_or c e))).
Proof. js_cases. Qed.

Lemma js_or_keep2 b e : js_or (js_or b e) e = js_or b e.
Proof. js_cases. Qed.

Lemma js_or_keep3 b c e : js_or (js_or b (js_or c e)) (js_or c e)
                          = js_or b (js_or c e).
Proof. js_cases. Qed.

Lemma js_or_created a now now' :
  now ≠ ""%string →
  js_or (js_or a (Some now)) (Some now') = js_or a (Some now).
Proof. intros. js_cases. Qed.

Lemma union_resubmit (new old : gmap string string) :
  new ∪ (new ∪ old) = new ∪ old.
Proof. by rewrite (assoc_L (∪)), (idemp_L (∪)). Qed.

Lemma updatedProfile_resubmit now0 now1 account current data :
  now0 ≠ ""%string →
  AuthContext.updatedProfile now1 account
    (Some (AuthContext.updatedProfile now0 account current data)) data
  = stamped now1 (AuthContext.updatedProfile now0 account current data).
Proof.
  intros Hnow. unfold AuthContext.updatedProfile, stamped. cbv zeta.
  cbn [default from_option id Profile.id Profile.email Profile.displayName Profile.name
       Profile.fullName Profile.photoURL Profile.gender Profile.preferences
       Profile.location Profile.role Profile.isAnonymous Profile.lastUpdated
       Profile.createdAt].
  f_equal.
  - by rewrite js_or_resubmit2.
  - by rewrite js_or_resubmit3.
  - by rewrite js_or_resubmit_name.
  - by rewrite js_or_resubmit2.
  - by rewrite js_or_resubmit3.
  - destruct (ProfileData.gender data); [done|]. by rewrite js_or_keep2.
  - by rewrite union_resubmit.
  - by destruct (ProfileData.location data).
  - destruct (ProfileData.role data); [done|]. by rewrite js_or_keep2.
  - destruct (ProfileData.isAnonymous data) as [|]; [done|].
    f_equal. by destruct (Profile.isAnonymous _) as [[]|], (Auth.isAnonymous _).
  - by rewrite js_or_created.
Qed.

End Profiles.

(** X15 (a profile update is a merge).  After a first save at a
    non-empty timestamp, a second [updateUserProfile] keeps the uid as
    id, the email and the creation time, stamps [lastUpdated], and keeps
    every field its argument leaves out: display name, full name and
    photo when given blank, the name when name and display name are
    blank, gender, role and location when undefined; the preferences are
    the stored ones overridden key by key by the given ones; and saving
    the same data again changes nothing but [lastUpdated]. *)
Theorem profile_update_is_a_merge (now0 now1 : string)
    (account : Auth.Account) (current : option Profile.t)
    (data0 data1 : ProfileData.t) :
  let saved := AuthContext.updatedProfile now0 account current data0 in
  let next := AuthContext.updatedProfile now1 account (Some saved) data1 in
  now0 ≠ ""%string →
  Profile.id next = Some (Auth.uid account) ∧
  Profile.lastUpdated next = Some now1 ∧
  Profile.email next = Profile.email saved ∧
  Profile.createdAt next = Profile.createdAt saved ∧
  (blank (ProfileData.displayName data1) →
     Profile.displayName next = Profile.displayName saved ∧
     (blank (ProfileData.name data1) →
        Profile.name next = Profile.name saved)) ∧
  (blank (ProfileData.fullName data1) →
     Profile.fullName next = Profile.fullName saved) ∧
  (blank (ProfileData.photoURL data1) →
     Profile.photoURL next = Profile.photoURL saved) ∧
  (ProfileData.gender data1 = None →
     Profile.gender next = Profile.gender saved) ∧
  (ProfileData.role data1 = None → Profile.role next = Profile.role saved) ∧
  (ProfileData.location data1 = None →
     Profile.location next = Profile.location saved) ∧
  (∃ before after,
     Profile.preferences saved = Some before ∧
     Profile.preferences next = Some after ∧
     ∀ key, after !! key
            = match default ∅ (ProfileData.preferences data1) !! key with
              | Some value => Some value
              | None => before !! key
              end) ∧
  AuthContext.updatedProfile now1 account (Some saved) data0
  = stamped now1 saved.
Proof.
  intros saved next Hnow.
  unfold next, saved, AuthContext.updatedProfile. cbv zeta.
  cbn [default from_option id Profile.id Profile.email Profile.displayName Profile.name
       Profile.fullName Profile.photoURL Profile.gender Profile.preferences
       Profile.location Profile.role Profile.isAnonymous Profile.lastUpdated
       Profile.createdAt].
  split_and!; try done.
  - by rewrite js_or_resubmit2.
  - by rewrite js_or_created.
  - intros Hd. rewrite (js_or_blank _ _ Hd). split.
    + generalize (js_or (Auth.displayName account) (Some ""%string)).
      js_cases.
    + intros Hn. rewrite (js_or_blank _ _ Hn).
      generalize (js_or (Auth.displayName account) (Some ""%string)).
      js_cases.
  - intros Hd. rewrite (js_or_blank _ _ Hd). js_cases.
  - intros Hd. rewrite (js_or_blank _ _ Hd).
    generalize (js_or (Auth.photoURL account) (Some ""%string)). js_cases.
  - intros ->. js_cases.
  - intros ->. js_cases.
  - by intros ->.
  - eexists _, _. split_and!; [done..|]. intros key.
    rewrite lookup_union.
    by destruct (default ∅ (ProfileData.preferences data1) !! key),
                ((default ∅ (ProfileData.preferences data0)
                  ∪ default ∅ (Profile.preferences
                                 (default Profile.empty current))) !! key).
  - by apply updatedProfile_resubmit.
Qed.

Lemma profile_update_is_a_merge_witness :
  Profile.name
    (AuthContext.updatedProfile "t1" nour
       (Some (AuthContext.updatedProfile "t0" nour None nourData))
       (ProfileData.ofPhoto "p.png"))
  = Some "Nour"%string.
Proof.
  destruct (profile_update_is_a_merge "t0" "t1" nour None nourData
              (ProfileData.ofPhoto "p.png"))
    as (_ & _ & _ & _ & Hname & _); [done|].
  destruct Hname as [_ Hname]; [by left|].
  rewrite Hname; [reflexivity|by left].
Defined.

(** X16 (admin rights follow the role).  A super admin is an admin;
    nobody is one without an account or without a profile; an
    [updateUserProfile] that gives no role, accepted or not, changes
    neither answer; [setAdminRole], when the store accepts it, sets the
    role it is given (admin by default) whatever the role of the caller
    was, so that the caller is an admin afterwards exactly for the roles
    admin and super-admin; refused, or without an account, it changes
    nothing and returns false. *)
Theorem admin_rights_follow_the_role (refused : option string)
    (now : string) (currentUser : option Auth.Account)
    (account : Auth.Account) (userProfile : option Profile.t)
    (data : ProfileData.t) (role : option string) :
  let update :=
    AuthContext.updateUserProfile refused now (Some account) userProfile
      data in
  let promotion :=
    AuthContext.setAdminRole None now (Some account) userProfile role in
  (AuthContext.isSuperAdmin currentUser userProfile = true →
     AuthContext.isAdmin currentUser userProfile = true) ∧
  AuthContext.isAdmin None userProfile = false ∧
  AuthContext.isAdmin currentUser None = false ∧
  (ProfileData.role data = None →
     AuthContext.isAdmin (Some account) (AuthContext.userProfile update)
     = AuthContext.isAdmin (Some account) userProfile ∧
     AuthContext.isSuperAdmin (Some account) (AuthContext.userProfile update)
     = AuthContext.isSuperAdmin (Some account) userProfile) ∧
  snd promotion = true ∧
  (Profile.role <$> fst promotion) = Some (Some (default "admin"%string role)) ∧
  (AuthContext.isAdmin (Some account) (fst promotion) = true
   ↔ role = None ∨ role = Some "admin"%string
     ∨ role = Some "super-admin"%string) ∧
  (∀ error,
     AuthContext.setAdminRole (Some error) now (Some account) userProfile role
     = (userProfile, false)) ∧
  AuthContext.setAdminRole refused now None userProfile role
  = (userProfile, false).
Proof.
  intros update promotion. split_and!; try done.
  - unfold AuthContext.isSuperAdmin, AuthContext.isAdmin.
    destruct currentUser, userProfile; try done.
    intros ->. by rewrite orb_true_r.
  - by destruct currentUser.
  - intros Hrole. unfold update, AuthContext.updateUserProfile.
    destruct refused; [done|].
    unfold AuthContext.isAdmin, AuthContext.isSuperAdmin,
      AuthContext.updatedProfile.
    cbn [AuthContext.userProfile Profile.role]. rewrite Hrole.
    destruct userProfile as [profile|]; cbn [default from_option id].
    + destruct (Profile.role profile) as [r|]; [|done].
      unfold js_or. case_decide; [subst|done]. done.
    + done.
  - unfold promotion, AuthContext.setAdminRole. simpl.
    destruct role as [r|]; simpl.
    + split.
      * intros H. apply orb_true_iff in H as [H|H];
          apply bool_decide_eq_true in H; injection H as ->; tauto.
      * intros [H|[H|H]]; [done|injection H as ->..]; done.
    + split; [tauto|done].
Qed.

Lemma admin_rights_follow_the_role_witness :
  AuthContext.isAdmin (Some nour) (Some rootProfile) = true ∧
  AuthContext.isAdmin (Some nour)
    (AuthContext.userProfile
       (AuthContext.updateUserProfile None "t1" (Some nour)
          (Some rootProfile) (ProfileData.ofPhoto "p.png")))
  = AuthContext.isAdmin (Some nour) (Some rootProfile).
Proof.
  destruct (admin_rights_follow_the_role None "t1" (Some nour) nour
              (Some rootProfile) (ProfileData.ofPhoto "p.png") None)
    as (Hsuper & _ & _ & Hkeep & _).
  split; [apply Hsuper; reflexivity|apply Hkeep; reflexivity].
Defined.

(** X17 (loading a profile at sign-in).  [loadUserProfile] never
    changes or removes a stored document: a stored profile is returned
    as it is; only when none is stored is the initial profile written
    under the uid, and that profile gives no admin rights; when the
    function returns null neither the collection nor the [userProfile]
    state has changed, and a profile it returns is the one in the state
    and in the collection. *)
Theorem sign_in_keeps_stored_profiles (getFails setFails : bool)
    (created updated : string) (user : Auth.Account)
    (users : gmap string Profile.t) (userProfile : option Profile.t) :
  let run :=
    AuthContext.loadUserProfile getFails setFails created updated user users
      userProfile in
  let initial := AuthContext.initialProfile created updated user in
  (∀ i profile, users !! i = Some profile →
     run.1.1 !! i = Some profile) ∧
  (∀ profile, getFails = false → users !! Auth.uid user = Some profile →
     run = (users, Some profile, Some profile)) ∧
  (getFails = false → setFails = false → users !! Auth.uid user = None →
     run = (<[Auth.uid user := initial]> users, Some initial, Some initial)) ∧
  AuthContext.isAdmin (Some user) (Some initial) = false ∧
  (run.2 = None → run.1.1 = users ∧ run.1.2 = userProfile) ∧
  (∀ profile, run.2 = Some profile →
     run.1.2 = Some profile ∧ run.1.1 !! Auth.uid user = Some profile).
Proof.
  intros run initial. unfold run, AuthContext.loadUserProfile.
  split_and!.
  - intros i profile Hi. destruct getFails; [done|].
    destruct (users !! Auth.uid user) eqn:Hu; [done|].
    destruct setFails; [done|]. cbn [fst].
    rewrite lookup_insert_ne; [done|]. intros <-. congruence.
  - by intros profile -> ->.
  - by intros -> -> ->.
  - done.
  - destruct getFails; [done|].
    destruct (users !! Auth.uid user) eqn:Hu; [done|].
    by destruct setFails.
  - intros profile. destruct getFails; [done|].
    destruct (users !! Auth.uid user) eqn:Hu.
    + by intros [= <-].
    + destruct setFails; [done|]. intros [= <-]. cbn [fst snd].
      by rewrite lookup_insert_eq.
Qed.

Lemma sign_in_keeps_stored_profiles_witness :
  AuthContext.loadUserProfile false false "t1" "t2" nour rootOnly None
  = (rootOnly, Some rootProfile, Some rootProfile).
Proof.
  apply (proj1 (proj2 (sign_in_keeps_stored_profiles false false "t1" "t2"
                         nour rootOnly None)) rootProfile);
    reflexivity.
Defined.


